(** * Paginatable: a shallow embedding of the page-accumulating store

    The TypeScript class [Paginatable<T extends { id: number }>] keeps its
    state in JavaScript objects that are shared by reference: the [Map] of
    items and the memoized array are aliased between a store and every clone
    handed to the React dispatch function, whereas the [Set] of seen pages
    and the [Map] of loading flags are copied.  The claims of the
    specification are about exactly this sharing, so the embedding is a
    small object heap with one typed region per kind of JavaScript object,
    and the methods are programs of a state-and-exception monad over it.

    Modelling conventions.
    - JavaScript [number]s used as identities, page numbers and totals are
      integers ([Z]); NaN and signed zeros are outside the model.
    - [Map<T["id"], T>] is an association list in insertion order with the
      semantics of ECMAScript [Map.prototype.set] (an existing key keeps its
      position, a new key goes to the end) and [Map.prototype.delete].
    - [Set<number>] is a [gset Z]; [Map<number, boolean>] for the loading
      flags is a [gmap Z bool] (it is never iterated in an order-sensitive
      way).
    - The injected [onPaginate] is an oracle from page numbers to settled
      promises; invoking it is recorded in the [fetches] trace.
    - The React dispatch function is opaque: a call is recorded in the
      [notified] trace together with the snapshot it received.
    - [console.warn] appends to the [console] trace. *)

From stdpp Require Import gmap strings list fin_maps.

Open Scope Z_scope.

(** ** Locations and the item interface *)

Definition loc := positive.

(** [T extends { id: number }] *)
Class HasId (T : Type) := id : T → Z.

(** The identity of a dispatch function (a React state setter). *)
Definition callback := nat.

(** ** ECMAScript [Map] on insertion-ordered entries *)

Section entries.
Context {V : Type}.

(** [Map.prototype.has] *)
Fixpoint entries_has (k : Z) (m : list (Z * V)) : bool :=
  match m with
  | [] => false
  | (k', _) :: r => if decide (k = k') then true else entries_has k r
  end.

(** [Map.prototype.get] *)
Fixpoint entries_get (k : Z) (m : list (Z * V)) : option V :=
  match m with
  | [] => None
  | (k', v) :: r => if decide (k = k') then Some v else entries_get k r
  end.

(** [Map.prototype.set]: an existing key is overwritten where it stands,
    a new key is appended. *)
Fixpoint entries_set (k : Z) (v : V) (m : list (Z * V)) : list (Z * V) :=
  match m with
  | [] => [(k, v)]
  | (k', v') :: r =>
      if decide (k = k') then (k, v) :: r else (k', v') :: entries_set k v r
  end.

(** [Map.prototype.delete]: the entries that remain. The boolean the
    method returns is [entries_has] on the map before the call. *)
Fixpoint entries_delete (k : Z) (m : list (Z * V)) : list (Z * V) :=
  match m with
  | [] => []
  | (k', v') :: r =>
      if decide (k = k') then r else (k', v') :: entries_delete k r
  end.

(** [Array.from(map.values())] *)
Definition entries_values (m : list (Z * V)) : list V := m.*2.

(** Position of a key in iteration order. *)
Fixpoint entries_index (k : Z) (m : list (Z * V)) : option nat :=
  match m with
  | [] => None
  | (k', _) :: r =>
      if decide (k = k') then Some 0%nat else S <$> entries_index k r
  end.

End entries.

(** ** Diagnostics *)

Module messages.
Definition NOT_FOUND : string := "Item was not found in the dataset".
Definition FAILED_TO_UPDATE : string := "Failed to update item with id".
Definition FAILED_TO_GET : string := "Failed to get item with id".
Definition FAILED_TO_REMOVE : string := "Failed to remove item with id".
End messages.

(** One [console.warn(a, b, itemId)] call. *)
Record warning := Warn { warn_what : string; warn_where : string; warn_id : Z }.

(** ** Exceptions and promise outcomes *)

Inductive exn :=
  | TypeError_not_a_function   (* calling [undefined] *)
  | FetchRejected (reason : string) (* the awaited promise rejected *)
  | Dangling.                  (* a location that was never allocated *)

Inductive completion (A : Type) :=
  | Normal (a : A)
  | Thrown (e : exn).
Arguments Normal {A} a.
Arguments Thrown {A} e.

Section paginatable.
Context {T : Type} `{HasId T}.

(** What [await this.onPaginate(page)] settles to. *)
Inductive settled :=
  | Resolved (data : option (list T)) (total : Z)
  | Rejected (reason : string).

(** The fields of a [Paginatable] instance. Collections are references. *)
Record Paginatable := {
  total : Z;
  loading : loc;
  _items : loc;
  _itemsCache : option loc;
  seen : loc;
  onPaginate : Z → settled;
  dispatch : option callback;
}.

(** The object heap and the observable traces. *)
Record world := {
  maps : gmap loc (list (Z * T));
  arrays : gmap loc (list T);
  sets : gmap loc (gset Z);
  flags : gmap loc (gmap Z bool);
  objs : gmap loc Paginatable;
  fetches : list Z;
  notified : list (callback * loc);
  console : list warning;
}.

(** Field assignment, one function per assigned field. *)
Definition with_total (n : Z) (st : Paginatable) : Paginatable :=
  {| total := n; loading := loading st; _items := _items st;
     _itemsCache := _itemsCache st; seen := seen st;
     onPaginate := onPaginate st; dispatch := dispatch st |}.
Definition with_loading (l : loc) (st : Paginatable) : Paginatable :=
  {| total := total st; loading := l; _items := _items st;
     _itemsCache := _itemsCache st; seen := seen st;
     onPaginate := onPaginate st; dispatch := dispatch st |}.
Definition with_items (l : loc) (st : Paginatable) : Paginatable :=
  {| total := total st; loading := loading st; _items := l;
     _itemsCache := _itemsCache st; seen := seen st;
     onPaginate := onPaginate st; dispatch := dispatch st |}.
Definition with_itemsCache (c : option loc) (st : Paginatable) : Paginatable :=
  {| total := total st; loading := loading st; _items := _items st;
     _itemsCache := c; seen := seen st;
     onPaginate := onPaginate st; dispatch := dispatch st |}.
Definition with_seen (l : loc) (st : Paginatable) : Paginatable :=
  {| total := total st; loading := loading st; _items := _items st;
     _itemsCache := _itemsCache st; seen := l;
     onPaginate := onPaginate st; dispatch := dispatch st |}.
Definition with_dispatch (d : option callback) (st : Paginatable) : Paginatable :=
  {| total := total st; loading := loading st; _items := _items st;
     _itemsCache := _itemsCache st; seen := seen st;
     onPaginate := onPaginate st; dispatch := d |}.

Definition set_maps (x : gmap loc (list (Z * T))) (w : world) : world :=
  {| maps := x; arrays := arrays w; sets := sets w; flags := flags w;
     objs := objs w; fetches := fetches w; notified := notified w;
     console := console w |}.
Definition set_arrays (x : gmap loc (list T)) (w : world) : world :=
  {| maps := maps w; arrays := x; sets := sets w; flags := flags w;
     objs := objs w; fetches := fetches w; notified := notified w;
     console := console w |}.
Definition set_sets (x : gmap loc (gset Z)) (w : world) : world :=
  {| maps := maps w; arrays := arrays w; sets := x; flags := flags w;
     objs := objs w; fetches := fetches w; notified := notified w;
     console := console w |}.
Definition set_flags (x : gmap loc (gmap Z bool)) (w : world) : world :=
  {| maps := maps w; arrays := arrays w; sets := sets w; flags := x;
     objs := objs w; fetches := fetches w; notified := notified w;
     console := console w |}.
Definition set_objs (x : gmap loc Paginatable) (w : world) : world :=
  {| maps := maps w; arrays := arrays w; sets := sets w; flags := flags w;
     objs := x; fetches := fetches w; notified := notified w;
     console := console w |}.
Definition set_fetches (x : list Z) (w : world) : world :=
  {| maps := maps w; arrays := arrays w; sets := sets w; flags := flags w;
     objs := objs w; fetches := x; notified := notified w;
     console := console w |}.
Definition set_notified (x : list (callback * loc)) (w : world) : world :=
  {| maps := maps w; arrays := arrays w; sets := sets w; flags := flags w;
     objs := objs w; fetches := fetches w; notified := x;
     console := console w |}.
Definition set_console (x : list warning) (w : world) : world :=
  {| maps := maps w; arrays := arrays w; sets := sets w; flags := flags w;
     objs := objs w; fetches := fetches w; notified := notified w;
     console := x |}.

(** The world before any object exists. *)
Definition empty_world : world :=
  {| maps := ∅; arrays := ∅; sets := ∅; flags := ∅; objs := ∅;
     fetches := []; notified := []; console := [] |}.

(** ** The monad of method bodies *)

Definition M (A : Type) : Type := world → completion A * world.

Definition ret {A} (a : A) : M A := λ w, (Normal a, w).
Definition throw {A} (e : exn) : M A := λ w, (Thrown e, w).
Definition bind {A B} (c : M A) (k : A → M B) : M B :=
  λ w, match c w with
       | (Normal a, w') => k a w'
       | (Thrown e, w') => (Thrown e, w')
       end.

Local Notation "'let*' x ':=' c 'in' k" := (bind c (λ x, k))
  (at level 10, x name, c at level 100, k at level 200, only parsing).
Local Notation "c ';;' k" := (bind c (λ _, k))
  (at level 100, k at level 200, right associativity, only parsing).

(** Dereference: a location outside the region is [Dangling]. *)
Definition deref {A} (region : world → gmap loc A) (l : loc) : M A :=
  λ w, match region w !! l with
       | Some a => (Normal a, w)
       | None => (Thrown Dangling, w)
       end.
Definition modify (f : world → world) : M unit := λ w, (Normal (), f w).

(** *** Built-in objects *)

Definition new_Map : M loc :=
  λ w, let l := fresh (dom (maps w)) in
       (Normal l, set_maps (<[l := []]> (maps w)) w).
Definition Map_entries (l : loc) : M (list (Z * T)) := deref maps l.
Definition Map_put (l : loc) (m : list (Z * T)) : M unit :=
  modify (λ w, set_maps (<[l := m]> (maps w)) w).
Definition Map_has (l : loc) (k : Z) : M bool :=
  let* m := Map_entries l in ret (entries_has k m).
Definition Map_get (l : loc) (k : Z) : M (option T) :=
  let* m := Map_entries l in ret (entries_get k m).
Definition Map_set (l : loc) (k : Z) (v : T) : M unit :=
  let* m := Map_entries l in Map_put l (entries_set k v m).
Definition Map_delete (l : loc) (k : Z) : M bool :=
  let* m := Map_entries l in
  Map_put l (entries_delete k m);;
  ret (entries_has k m).
Definition Map_clear (l : loc) : M unit :=
  let* _ := Map_entries l in Map_put l [].

(** [Array.from(values)] allocates a new array. *)
Definition Array_from (vs : list T) : M loc :=
  λ w, let l := fresh (dom (arrays w)) in
       (Normal l, set_arrays (<[l := vs]> (arrays w)) w).

(** [new Set(init)] *)
Definition new_Set (init : gset Z) : M loc :=
  λ w, let l := fresh (dom (sets w)) in
       (Normal l, set_sets (<[l := init]> (sets w)) w).
Definition Set_elems (l : loc) : M (gset Z) := deref sets l.
Definition Set_put (l : loc) (s : gset Z) : M unit :=
  modify (λ w, set_sets (<[l := s]> (sets w)) w).
Definition Set_has (l : loc) (x : Z) : M bool :=
  let* s := Set_elems l in ret (bool_decide (x ∈ s)).
Definition Set_add (l : loc) (x : Z) : M unit :=
  let* s := Set_elems l in Set_put l ({[x]} ∪ s).
Definition Set_clear (l : loc) : M unit :=
  let* _ := Set_elems l in Set_put l ∅.

(** [new Map(init)] for the loading flags. *)
Definition new_Flags (init : gmap Z bool) : M loc :=
  λ w, let l := fresh (dom (flags w)) in
       (Normal l, set_flags (<[l := init]> (flags w)) w).
Definition Flags_entries (l : loc) : M (gmap Z bool) := deref flags l.
Definition Flags_put (l : loc) (f : gmap Z bool) : M unit :=
  modify (λ w, set_flags (<[l := f]> (flags w)) w).
Definition Flags_set (l : loc) (p : Z) (b : bool) : M unit :=
  let* f := Flags_entries l in Flags_put l (<[p := b]> f).
Definition Flags_clear (l : loc) : M unit :=
  let* _ := Flags_entries l in Flags_put l ∅.

(** *** Instances *)

Definition alloc_obj (st : Paginatable) : M loc :=
  λ w, let l := fresh (dom (objs w)) in
       (Normal l, set_objs (<[l := st]> (objs w)) w).
(** Reading [this]. *)
Definition self (o : loc) : M Paginatable := deref objs o.
(** [o.field = value] *)
Definition assign (o : loc) (f : Paginatable → Paginatable) : M unit :=
  let* st := self o in
  modify (λ w, set_objs (<[o := f st]> (objs w)) w).

(** Traces. *)
Definition console_warn (a b : string) (k : Z) : M unit :=
  modify (λ w, set_console (console w ++ [Warn a b k]) w).
Definition record_fetch (p : Z) : M unit :=
  modify (λ w, set_fetches (fetches w ++ [p]) w).
Definition record_dispatch (d : callback) (snapshot : loc) : M unit :=
  modify (λ w, set_notified (notified w ++ [(d, snapshot)]) w).

(** Reading [this.field]. *)
Definition field {A} (o : loc) (proj : Paginatable → A) : M A :=
  let* st := self o in ret (proj st).

(** [for (const x of xs) body(x)] *)
Fixpoint for_of {A} (xs : list A) (body : A → M unit) : M unit :=
  match xs with
  | [] => ret ()
  | x :: r => body x;; for_of r body
  end.

(** ** The class [Paginatable] *)

(** [constructor(onPaginate)], with the field initializer
    [_itemsCache = null]; [dispatch] is left undefined. *)
Definition new_Paginatable (f : Z → settled) : M loc :=
  let* m := new_Map in
  let* l := new_Flags ∅ in
  let* s := new_Set ∅ in
  alloc_obj {| total := 0; loading := l; _items := m; _itemsCache := None;
               seen := s; onPaginate := f; dispatch := None |}.

Definition setDispatch (o : loc) (d : callback) : M loc :=
  assign o (with_dispatch (Some d));;
  ret o.

(** [get items()]: an array reference is always truthy, so the test is on
    [null] alone. *)
Definition items (o : loc) : M loc :=
  let* cached := field o _itemsCache in
  match cached with
  | Some a => ret a
  | None =>
      let* m := field o _items in
      let* vs := Map_entries m in
      let* a := Array_from (entries_values vs) in
      assign o (with_itemsCache (Some a));;
      ret a
  end.

(** [private clone()] *)
Definition clone (o : loc) : M loc :=
  let* f := field o onPaginate in
  let* cloned := new_Paginatable f in
  (let* m := field o _items in assign cloned (with_items m));;
  (let* n := field o total in assign cloned (with_total n));;
  (let* s := field o seen in
   let* elems := Set_elems s in
   let* s' := new_Set elems in
   assign cloned (with_seen s'));;
  (let* d := field o dispatch in assign cloned (with_dispatch d));;
  (let* l := field o loading in
   let* fl := Flags_entries l in
   let* l' := new_Flags fl in
   assign cloned (with_loading l'));;
  (let* c := field o _itemsCache in assign cloned (with_itemsCache c));;
  ret cloned.

(** [this.dispatch(this.clone())]: the callee is read, the argument is
    evaluated, and only then is the callee required to be callable. *)
Definition dispatch_clone (o : loc) : M unit :=
  let* d := field o dispatch in
  let* snapshot := clone o in
  match d with
  | Some f => record_dispatch f snapshot
  | None => throw TypeError_not_a_function
  end.

(** [async paginate(page)] up to the [await]: [None] when the page was
    seen already (the method returns), otherwise the promise that
    [onPaginate] returned. *)
Definition paginate_enter (o : loc) (page : Z) : M (option settled) :=
  let* already := (let* s := field o seen in Set_has s page) in
  if already then ret None else
  (let* s := field o seen in Set_add s page);;
  (let* l := field o loading in Flags_set l page true);;
  let* f := field o onPaginate in
  record_fetch page;;
  ret (Some (f page)).

(** [paginate] after the [await]. A rejection is rethrown at the [await];
    nothing after it runs. *)
Definition paginate_resume (o : loc) (page : Z) (r : settled) : M unit :=
  match r with
  | Rejected reason => throw (FetchRejected reason)
  | Resolved data n =>
      (let* l := field o loading in Flags_set l page false);;
      assign o (with_total n);;
      for_of (default [] data)
        (λ item, let* m := field o _items in Map_set m (id item) item);;
      dispatch_clone o
  end.

(** [paginate] run to completion with no other call interleaved. *)
Definition paginate (o : loc) (page : Z) : M unit :=
  let* pending := paginate_enter o page in
  match pending with
  | None => ret ()
  | Some r => paginate_resume o page r
  end.

Definition reset (o : loc) : M loc :=
  (let* m := field o _items in Map_clear m);;
  assign o (with_itemsCache None);;
  assign o (with_total 0);;
  (let* s := field o seen in Set_clear s);;
  (let* l := field o loading in Flags_clear l);;
  ret o.

Definition has (o : loc) (itemId : Z) : M bool :=
  let* m := field o _items in Map_has m itemId.

Definition add (o : loc) (item : T) : M unit :=
  let* present := has o (id item) in
  if present then ret () else
  assign o (with_itemsCache None);;
  (let* m := field o _items in Map_set m (id item) item);;
  dispatch_clone o.

Definition remove (o : loc) (itemId : Z) : M unit :=
  let* deleted := (let* m := field o _items in Map_delete m itemId) in
  if negb deleted then
    console_warn messages.NOT_FOUND messages.FAILED_TO_REMOVE itemId
  else
    assign o (with_itemsCache None);;
    dispatch_clone o.

Definition update (o : loc) (item : T) : M unit :=
  let* present := has o (id item) in
  if negb present then
    console_warn messages.NOT_FOUND messages.FAILED_TO_UPDATE (id item)
  else
    (let* m := field o _items in Map_set m (id item) item);;
    assign o (with_itemsCache None);;
    dispatch_clone o.

(** [get(itemId)]: items are objects, hence truthy when present. *)
Definition get (o : loc) (itemId : Z) : M (option T) :=
  let* item := (let* m := field o _items in Map_get m itemId) in
  match item with
  | Some _ => ret item
  | None =>
      console_warn messages.NOT_FOUND messages.FAILED_TO_GET itemId;;
      ret item
  end.

(** ** Calls as data *)

(** The public surface of a store, for statements that range over every
    call a client can make. *)
Inductive call :=
  | CallPaginate (page : Z)
  | CallReset
  | CallAdd (item : T)
  | CallRemove (itemId : Z)
  | CallUpdate (item : T)
  | CallSetDispatch (d : callback)
  | CallItems
  | CallHas (itemId : Z)
  | CallGet (itemId : Z).

(** Run a method for its effect. *)
Definition discard {A} (c : M A) : M unit := let* _ := c in ret ().

Definition perform (o : loc) (c : call) : M unit :=
  match c with
  | CallPaginate page => paginate o page
  | CallReset => discard (reset o)
  | CallAdd item => add o item
  | CallRemove itemId => remove o itemId
  | CallUpdate item => update o item
  | CallSetDispatch d => discard (setDispatch o d)
  | CallItems => discard (items o)
  | CallHas itemId => discard (has o itemId)
  | CallGet itemId => discard (get o itemId)
  end.

(** A sequence of calls on one store; a thrown exception is caught by the
    caller and the next call proceeds on the world as it was left. *)
Fixpoint perform_all (o : loc) (cs : list call) (w : world) : world :=
  match cs with
  | [] => w
  | c :: r => perform_all o r (perform o c w).2
  end.

(** ** Predicates used by the statements *)

(** The store at [o] and the three collections it refers to exist; the
    predicate also names their current contents. *)
Definition live_at (w : world) (o : loc) (st : Paginatable)
    (m : list (Z * T)) (S : gset Z) (F : gmap Z bool) : Prop :=
  objs w !! o = Some st ∧ maps w !! _items st = Some m ∧
  sets w !! seen st = Some S ∧ flags w !! loading st = Some F.

(** No [Map] of items has two entries with one key. *)
Definition unique_keys (w : world) : Prop :=
  ∀ l m, maps w !! l = Some m → NoDup m.*1.

(** An entry list in which every item is stored under its own identity. *)
Definition keyed_by_id (m : list (Z * T)) : Prop :=
  Forall (λ kv, kv.1 = id kv.2) m.

(** Every [Map] of items in the heap satisfies [P]. *)
Definition every_map (P : list (Z * T) → Prop) (w : world) : Prop :=
  ∀ l m, maps w !! l = Some m → P m.

(** The heap only gained objects, and the traces are the same. *)
Definition grows (w w' : world) : Prop :=
  maps w ⊆ maps w' ∧ arrays w ⊆ arrays w' ∧ sets w ⊆ sets w' ∧
  flags w ⊆ flags w' ∧ objs w ⊆ objs w' ∧
  fetches w' = fetches w ∧ notified w' = notified w ∧ console w' = console w.

(** What the [for] loop of [paginate] computes on the entries. *)
Definition merge (data : list T) (m : list (Z * T)) : list (Z * T) :=
  foldl (λ acc item, entries_set (id item) item acc) m data.

(** Every world a client can bring about: constructing stores, calling
    methods to completion, and the two halves of [paginate] on their own
    (any interleaving of suspended calls, with whatever the promise
    settles to). *)
Inductive reachable : world → Prop :=
  | reach_empty : reachable empty_world
  | reach_new w f : reachable w → reachable (new_Paginatable f w).2
  | reach_call w o c : reachable w → reachable (perform o c w).2
  | reach_enter w o p : reachable w → reachable (paginate_enter o p w).2
  | reach_resume w o p r : reachable w → reachable (paginate_resume o p r w).2.

(** Weakest precondition of a method body: the postcondition speaks of the
    completion (normal or thrown) and the world it leaves. *)
Definition wp {A} (c : M A) (Φ : completion A → world → Prop) (w : world) : Prop :=
  Φ (c w).1 (c w).2.

(** *** Postconditions used in the proofs *)

(** What [clone] leaves behind, whatever the state it starts from. *)
Definition clone_post (w : world) (o : loc) (r : completion loc) (w' : world) : Prop :=
  grows w w' ∧
  (∀ l m, maps w' !! l = Some m → maps w !! l = Some m ∨ m = []) ∧
  (∀ st S F,
     objs w !! o = Some st → sets w !! seen st = Some S →
     flags w !! loading st = Some F →
     ∃ c s' l',
       r = Normal c ∧ objs w !! c = None ∧ sets w !! s' = None ∧
       flags w !! l' = None ∧
       objs w' !! c = Some {| total := total st; loading := l';
                              _items := _items st;
                              _itemsCache := _itemsCache st; seen := s';
                              onPaginate := onPaginate st;
                              dispatch := dispatch st |} ∧
       sets w' !! s' = Some S ∧ flags w' !! l' = Some F).

(** [this.dispatch(this.clone())] on a live store: the snapshot is handed
    to the registered callback, or the call of [undefined] throws. *)
Definition dispatch_clone_post (w : world) (o : loc) (r : completion ()) (w' : world) : Prop :=
  maps w ⊆ maps w' ∧ arrays w ⊆ arrays w' ∧ sets w ⊆ sets w' ∧
  flags w ⊆ flags w' ∧ objs w ⊆ objs w' ∧
  fetches w' = fetches w ∧ console w' = console w ∧
  (∀ l m, maps w' !! l = Some m → maps w !! l = Some m ∨ m = []) ∧
  (notified w' = notified w ∨ ∃ d c, notified w' = notified w ++ [(d, c)]) ∧
  (∀ st S F,
     objs w !! o = Some st → sets w !! seen st = Some S →
     flags w !! loading st = Some F →
     ∃ c s' l',
       objs w !! c = None ∧ sets w !! s' = None ∧ flags w !! l' = None ∧
       objs w' !! c = Some {| total := total st; loading := l';
                              _items := _items st;
                              _itemsCache := _itemsCache st; seen := s';
                              onPaginate := onPaginate st;
                              dispatch := dispatch st |} ∧
       sets w' !! s' = Some S ∧ flags w' !! l' = Some F ∧
       match dispatch st with
       | Some d => r = Normal () ∧ notified w' = notified w ++ [(d, c)]
       | None => r = Thrown TypeError_not_a_function ∧ notified w' = notified w
       end).

Definition is_setDispatch (c : call) : bool :=
  match c with CallSetDispatch _ => true | _ => false end.

(** A call on the store [o] leaves [o] live with the same collections and
    callback status, changes no other store, no seen set and no loading
    map but those of [o], and never changes an array once it exists. It
    calls [undefined] only when no dispatch function is registered, and
    only [setDispatch] changes which one is. *)
Definition call_frame (o : loc) (st : Paginatable) (w : world) (registers : bool)
    (r : completion ()) (w' : world) : Prop :=
  (∃ st' m' S' F',
     live_at w' o st' m' S' F' ∧ seen st' = seen st ∧
     loading st' = loading st ∧ _items st' = _items st ∧
     onPaginate st' = onPaginate st ∧
     (is_Some (dispatch st) → is_Some (dispatch st')) ∧
     (registers = false → dispatch st' = dispatch st)) ∧
  (∀ l x, l ≠ o → objs w !! l = Some x → objs w' !! l = Some x) ∧
  (∀ l x, l ≠ seen st → sets w !! l = Some x → sets w' !! l = Some x) ∧
  (∀ l x, l ≠ loading st → flags w !! l = Some x → flags w' !! l = Some x) ∧
  arrays w ⊆ arrays w' ∧
  (is_Some (dispatch st) → r ≠ Thrown TypeError_not_a_function).

(** *** Kinds of calls *)

Definition is_paginate (c : call) : bool :=
  match c with CallPaginate _ => true | _ => false end.
Definition is_reset (c : call) : bool :=
  match c with CallReset => true | _ => false end.
(** [add], [remove], [update] *)
Definition is_edit (c : call) : bool :=
  match c with CallAdd _ | CallRemove _ | CallUpdate _ => true | _ => false end.

(** What one call on a live store with fields [st], entries [m], seen
    pages [S] and loading flags [F] does to that store and to the traces,
    by kind of call. [ps] are the pages fetched by the call, at most one. *)
Definition call_effect (st : Paginatable) (m : list (Z * T)) (S : gset Z)
    (F : gmap Z bool) (c : call) (w : world) (o : loc) (w' : world) : Prop :=
  ∃ st' m' S' F' ps,
    live_at w' o st' m' S' F' ∧
    fetches w' = fetches w ++ ps ∧ (length ps ≤ 1)%nat ∧
    (is_paginate c = false → ps = []) ∧
    (∀ q, q ∈ ps → (q ∉ S) ∧ (q ∈ S')) ∧
    (is_reset c = false → S ⊆ S') ∧
    (is_paginate c = false → is_reset c = false →
     total st' = total st ∧ S' = S ∧ F' = F) ∧
    (is_paginate c = false → is_edit c = false → notified w' = notified w) ∧
    (is_paginate c = false → is_edit c = false → is_reset c = false → m' = m).

End paginatable.

(** ** A concrete item type and sample stores *)

Module Sample.

(** [{ id: number, title: string }], the shape used in the README. *)
Record Book := { book_id : Z; title : string }.

#[export] Instance Book_HasId : HasId Book := book_id.

Definition bookA : Book := {| book_id := 1; title := "A" |}.
Definition bookB : Book := {| book_id := 2; title := "B" |}.
Definition bookA' : Book := {| book_id := 1; title := "A, second edition" |}.

(** Page 1 holds two books, every other page is empty; page 7 fails. *)
Definition fetcher (page : Z) : settled :=
  if page =? 1 then Resolved (Some [bookA; bookB]) 2
  else if page =? 7 then Rejected "network"
  else Resolved None 2.

(** [new Paginatable(fetcher)] in the empty world: the store is at
    location [1]. *)
Definition fresh_store : world := (new_Paginatable fetcher empty_world).2.

(** ... followed by [setDispatch(0)], as [usePaginatable] does. *)
Definition bound_store : world := (setDispatch 1%positive 0%nat fresh_store).2.

(** ... followed by a successful [paginate(1)]. *)
Definition loaded_store : world := (paginate 1%positive 1 bound_store).2.

(** The fields of the store at location [1] in the three worlds. *)
Definition fresh_state : Paginatable :=
  {| total := 0; loading := 1%positive; _items := 1%positive;
     _itemsCache := None; seen := 1%positive; onPaginate := fetcher;
     dispatch := None |}.
Definition bound_state : Paginatable := with_dispatch (Some 0%nat) fresh_state.
Definition loaded_state : Paginatable := with_total 2 bound_state.

(** The loaded store again, built from calls on the public surface. *)
Definition called_store : world :=
  perform_all 1%positive [CallSetDispatch 0%nat; CallPaginate 1] fresh_store.

(** The loaded store after the identity 1 has been written three times:
    fetched with page 1, overwritten by [update], offered again to [add]. *)
Definition rewritten_store : world :=
  perform_all 1%positive
    [CallSetDispatch 0%nat; CallPaginate 1; CallUpdate bookA'; CallAdd bookA]
    fresh_store.

(** An item of identity 5, which no page holds. *)
Definition bookE : Book := {| book_id := 5; title := "E" |}.

(** The loaded store after one read of [.items]: the array is at
    location [1] and cached. *)
Definition read_store : world := (items 1%positive loaded_store).2.
Definition read_state : Paginatable :=
  with_itemsCache (Some 1%positive) loaded_state.

End Sample.

(** * Properties *)

(** ** The ordered [Map] *)

Section entries_facts.
Context {V : Type}.
Implicit Types (m : list (Z * V)) (k : Z) (v : V).

Lemma entries_has_elem k m : entries_has k m = true ↔ k ∈ m.*1.
Proof.
  induction m as [|[k' v'] r IH]; simpl.
  - split; [done | by intros ?%elem_of_nil].
  - case_decide as E; rewrite elem_of_cons.
    + split; auto.
    + rewrite IH. intuition congruence.
Qed.

Lemma entries_has_get k m : entries_has k m = true ↔ is_Some (entries_get k m).
Proof.
  induction m as [|[k' v'] r IH]; simpl.
  - split; [done | by intros [? ?]].
  - case_decide; [split; eauto | done].
Qed.

Lemma entries_has_index k m : entries_has k m = true ↔ is_Some (entries_index k m).
Proof.
  induction m as [|[k' v'] r IH]; simpl.
  - split; [done | by intros [? ?]].
  - case_decide; [split; eauto |]. rewrite IH, fmap_is_Some. done.
Qed.

Lemma entries_set_keys_present k v m :
  entries_has k m = true → (entries_set k v m).*1 = m.*1.
Proof.
  induction m as [|[k' v'] r IH]; simpl; [done|].
  case_decide as E; simpl; [by subst | intros ?; f_equal; auto].
Qed.

Lemma entries_set_keys_absent k v m :
  entries_has k m = false → (entries_set k v m).*1 = m.*1 ++ [k].
Proof.
  induction m as [|[k' v'] r IH]; simpl; [done|].
  case_decide as E; simpl; [done | intros ?; f_equal; auto].
Qed.

Lemma entries_set_NoDup k v m : NoDup m.*1 → NoDup (entries_set k v m).*1.
Proof.
  intros Hm. destruct (entries_has k m) eqn:E.
  - by rewrite entries_set_keys_present.
  - rewrite entries_set_keys_absent by done.
    apply NoDup_app. split_and!; [done | | apply NoDup_singleton].
    intros x Hx ->%list_elem_of_singleton.
    apply entries_has_elem in Hx. congruence.
Qed.

Lemma entries_delete_sub k m x : x ∈ (entries_delete k m).*1 → x ∈ m.*1.
Proof.
  induction m as [|[k' v'] r IH]; simpl; [done|].
  case_decide; simpl; rewrite !elem_of_cons; intuition auto.
Qed.

Lemma entries_delete_NoDup k m : NoDup m.*1 → NoDup (entries_delete k m).*1.
Proof.
  induction m as [|[k' v'] r IH]; simpl; [done|].
  rewrite NoDup_cons. intros [Hk Hr].
  case_decide; simpl; [done|].
  apply NoDup_cons. split; [|auto].
  intros ?%entries_delete_sub. done.
Qed.

Lemma entries_delete_absent k m : entries_has k m = false → entries_delete k m = m.
Proof.
  induction m as [|[k' v'] r IH]; simpl; [done|].
  case_decide; [done | intros ?; f_equal; auto].
Qed.

Lemma entries_get_set_eq k v m : entries_get k (entries_set k v m) = Some v.
Proof.
  induction m as [|[k' v'] r IH]; simpl.
  - by rewrite decide_True.
  - case_decide; simpl; [by rewrite decide_True | by rewrite decide_False].
Qed.

Lemma entries_get_set_ne k k' v m :
  k ≠ k' → entries_get k' (entries_set k v m) = entries_get k' m.
Proof.
  intros Hne. induction m as [|[k0 v0] r IH]; simpl.
  - by rewrite decide_False.
  - case_decide; simpl.
    + subst k0. by rewrite !decide_False.
    + case_decide; auto.
Qed.

Lemma entries_set_length_present k v m :
  entries_has k m = true → length (entries_set k v m) = length m.
Proof.
  intros E. rewrite <-(length_fmap fst), entries_set_keys_present by done.
  by rewrite length_fmap.
Qed.

(** Overwriting a present key changes the value at the key's position and
    nothing else. *)
Lemma entries_set_values_present k v m i :
  entries_index k m = Some i →
  entries_values (entries_set k v m) = <[i := v]> (entries_values m).
Proof.
  unfold entries_values. revert i.
  induction m as [|[k' v'] r IH]; simpl; [done|]. intros i.
  case_decide; simpl.
  - by intros [= <-].
  - destruct (entries_index k r) as [j|]; simpl; [|done].
    intros [= <-]. simpl. f_equal. auto.
Qed.

Lemma entries_index_lt k m i : entries_index k m = Some i → (i < length m)%nat.
Proof.
  revert i. induction m as [|[k' v'] r IH]; simpl; [done|]. intros i.
  case_decide; [intros [= <-]; lia|].
  destruct (entries_index k r) as [j|]; simpl; [|done].
  intros [= <-]. specialize (IH j eq_refl). lia.
Qed.

Lemma entries_index_key k m i : entries_index k m = Some i → m.*1 !! i = Some k.
Proof.
  revert i. induction m as [|[k' v'] r IH]; simpl; [done|]. intros i.
  case_decide; [by intros [= <-]; subst|].
  destruct (entries_index k r) as [j|]; simpl; [|done].
  intros [= <-]. simpl. auto.
Qed.

End entries_facts.

(** ** Rules of the weakest precondition *)

Section rules.
Context {T : Type} `{HasId T}.
Implicit Types (w : world (T:=T)) (o l : loc).

Lemma wp_ret {A} (a : A) Φ w : Φ (Normal a) w → wp (ret a) Φ w.
Proof. done. Qed.

Lemma wp_throw {A} e (Φ : completion A → world → Prop) w :
  Φ (Thrown e) w → wp (throw e) Φ w.
Proof. done. Qed.

Lemma wp_bind {A B} (c : M A) (k : A → M B) Φ w :
  wp c (λ r w', match r with
                | Normal a => wp (k a) Φ w'
                | Thrown e => Φ (Thrown e) w'
                end) w →
  wp (bind c k) Φ w.
Proof. unfold wp, bind. by destruct (c w) as [[a|e] w']. Qed.

Lemma wp_mono {A} (c : M A) (Φ Ψ : completion A → world → Prop) w :
  wp c Φ w → (∀ r w', Φ r w' → Ψ r w') → wp c Ψ w.
Proof. unfold wp. auto. Qed.

Lemma wp_deref {A} (region : world → gmap loc A) l Φ w :
  match region w !! l with
  | Some a => Φ (Normal a) w
  | None => Φ (Thrown Dangling) w
  end →
  wp (deref region l) Φ w.
Proof. unfold wp, deref. by destruct (region w !! l). Qed.

Lemma wp_modify f Φ w : Φ (Normal ()) (f w) → wp (modify f) Φ w.
Proof. done. Qed.

Lemma wp_field {A} o (proj : Paginatable → A) Φ w :
  match objs w !! o with
  | Some st => Φ (Normal (proj st)) w
  | None => Φ (Thrown Dangling) w
  end →
  wp (field o proj) Φ w.
Proof. unfold wp, field, self, deref, bind. by destruct (objs w !! o). Qed.

Lemma wp_assign o f Φ w :
  match objs w !! o with
  | Some st => Φ (Normal ()) (set_objs (<[o := f st]> (objs w)) w)
  | None => Φ (Thrown Dangling) w
  end →
  wp (assign o f) Φ w.
Proof. unfold wp, assign, self, deref, bind. by destruct (objs w !! o). Qed.

Lemma wp_new_Map Φ w :
  (∀ l, maps w !! l = None → Φ (Normal l) (set_maps (<[l := []]> (maps w)) w)) →
  wp new_Map Φ w.
Proof.
  intros HΦ. apply HΦ, not_elem_of_dom, is_fresh.
Qed.

Lemma wp_new_Set init Φ w :
  (∀ l, sets w !! l = None → Φ (Normal l) (set_sets (<[l := init]> (sets w)) w)) →
  wp (new_Set init) Φ w.
Proof.
  intros HΦ. apply HΦ, not_elem_of_dom, is_fresh.
Qed.

Lemma wp_new_Flags init Φ w :
  (∀ l, flags w !! l = None → Φ (Normal l) (set_flags (<[l := init]> (flags w)) w)) →
  wp (new_Flags init) Φ w.
Proof.
  intros HΦ. apply HΦ, not_elem_of_dom, is_fresh.
Qed.

Lemma wp_Array_from vs Φ w :
  (∀ l, arrays w !! l = None → Φ (Normal l) (set_arrays (<[l := vs]> (arrays w)) w)) →
  wp (Array_from vs) Φ w.
Proof.
  intros HΦ. apply HΦ, not_elem_of_dom, is_fresh.
Qed.

Lemma wp_alloc_obj st Φ w :
  (∀ l, objs w !! l = None → Φ (Normal l) (set_objs (<[l := st]> (objs w)) w)) →
  wp (alloc_obj st) Φ w.
Proof.
  intros HΦ. apply HΦ, not_elem_of_dom, is_fresh.
Qed.

Lemma wp_new_Paginatable f Φ w :
  (∀ m l s c,
     maps w !! m = None → flags w !! l = None → sets w !! s = None →
     objs w !! c = None →
     Φ (Normal c)
       (set_objs (<[c := {| total := 0; loading := l; _items := m;
                            _itemsCache := None; seen := s;
                            onPaginate := f; dispatch := None |}]> (objs w))
          (set_sets (<[s := ∅]> (sets w))
             (set_flags (<[l := ∅]> (flags w))
                (set_maps (<[m := []]> (maps w)) w))))) →
  wp (new_Paginatable f) Φ w.
Proof.
  intros HΦ. unfold new_Paginatable.
  apply wp_bind, wp_new_Map. intros m Hm.
  apply wp_bind, wp_new_Flags. intros l Hl.
  apply wp_bind, wp_new_Set. intros s Hs.
  apply wp_alloc_obj. intros c Hc. by apply HΦ.
Qed.

(** Rules for the built-in collections. *)

Lemma wp_Map_entries l Φ w :
  match maps w !! l with
  | Some m => Φ (Normal m) w
  | None => Φ (Thrown Dangling) w
  end →
  wp (Map_entries l) Φ w.
Proof. apply wp_deref. Qed.

Lemma wp_Map_has l k Φ w :
  match maps w !! l with
  | Some m => Φ (Normal (entries_has k m)) w
  | None => Φ (Thrown Dangling) w
  end →
  wp (Map_has l k) Φ w.
Proof. unfold wp, Map_has, Map_entries, deref, bind. by destruct (maps w !! l). Qed.

Lemma wp_Map_get l k Φ w :
  match maps w !! l with
  | Some m => Φ (Normal (entries_get k m)) w
  | None => Φ (Thrown Dangling) w
  end →
  wp (Map_get l k) Φ w.
Proof. unfold wp, Map_get, Map_entries, deref, bind. by destruct (maps w !! l). Qed.

Lemma wp_Map_set l k v Φ w :
  match maps w !! l with
  | Some m => Φ (Normal ()) (set_maps (<[l := entries_set k v m]> (maps w)) w)
  | None => Φ (Thrown Dangling) w
  end →
  wp (Map_set l k v) Φ w.
Proof. unfold wp, Map_set, Map_entries, deref, bind. by destruct (maps w !! l). Qed.

Lemma wp_Map_delete l k Φ w :
  match maps w !! l with
  | Some m => Φ (Normal (entries_has k m))
                (set_maps (<[l := entries_delete k m]> (maps w)) w)
  | None => Φ (Thrown Dangling) w
  end →
  wp (Map_delete l k) Φ w.
Proof. unfold wp, Map_delete, Map_entries, deref, bind. by destruct (maps w !! l). Qed.

Lemma wp_Map_clear l Φ w :
  match maps w !! l with
  | Some m => Φ (Normal ()) (set_maps (<[l := []]> (maps w)) w)
  | None => Φ (Thrown Dangling) w
  end →
  wp (Map_clear l) Φ w.
Proof. unfold wp, Map_clear, Map_entries, deref, bind. by destruct (maps w !! l). Qed.

Lemma wp_Set_elems l Φ w :
  match sets w !! l with
  | Some s => Φ (Normal s) w
  | None => Φ (Thrown Dangling) w
  end →
  wp (Set_elems l) Φ w.
Proof. apply wp_deref. Qed.

Lemma wp_Set_has l x Φ w :
  match sets w !! l with
  | Some s => Φ (Normal (bool_decide (x ∈ s))) w
  | None => Φ (Thrown Dangling) w
  end →
  wp (Set_has l x) Φ w.
Proof. unfold wp, Set_has, Set_elems, deref, bind. by destruct (sets w !! l). Qed.

Lemma wp_Set_add l x Φ w :
  match sets w !! l with
  | Some s => Φ (Normal ()) (set_sets (<[l := {[x]} ∪ s]> (sets w)) w)
  | None => Φ (Thrown Dangling) w
  end →
  wp (Set_add l x) Φ w.
Proof. unfold wp, Set_add, Set_elems, deref, bind. by destruct (sets w !! l). Qed.

Lemma wp_Set_clear l Φ w :
  match sets w !! l with
  | Some s => Φ (Normal ()) (set_sets (<[l := ∅]> (sets w)) w)
  | None => Φ (Thrown Dangling) w
  end →
  wp (Set_clear l) Φ w.
Proof. unfold wp, Set_clear, Set_elems, deref, bind. by destruct (sets w !! l). Qed.

Lemma wp_Flags_entries l Φ w :
  match flags w !! l with
  | Some f => Φ (Normal f) w
  | None => Φ (Thrown Dangling) w
  end →
  wp (Flags_entries l) Φ w.
Proof. apply wp_deref. Qed.

Lemma wp_Flags_set l p b Φ w :
  match flags w !! l with
  | Some f => Φ (Normal ()) (set_flags (<[l := <[p := b]> f]> (flags w)) w)
  | None => Φ (Thrown Dangling) w
  end →
  wp (Flags_set l p b) Φ w.
Proof. unfold wp, Flags_set, Flags_entries, deref, bind. by destruct (flags w !! l). Qed.

Lemma wp_Flags_clear l Φ w :
  match flags w !! l with
  | Some f => Φ (Normal ()) (set_flags (<[l := ∅]> (flags w)) w)
  | None => Φ (Thrown Dangling) w
  end →
  wp (Flags_clear l) Φ w.
Proof. unfold wp, Flags_clear, Flags_entries, deref, bind. by destruct (flags w !! l). Qed.

Lemma wp_console_warn a b k Φ w :
  Φ (Normal ()) (set_console (console w ++ [Warn a b k]) w) →
  wp (console_warn a b k) Φ w.
Proof. done. Qed.

Lemma wp_record_fetch p Φ w :
  Φ (Normal ()) (set_fetches (fetches w ++ [p]) w) → wp (record_fetch p) Φ w.
Proof. done. Qed.

Lemma wp_record_dispatch d c Φ w :
  Φ (Normal ()) (set_notified (notified w ++ [(d, c)]) w) →
  wp (record_dispatch d c) Φ w.
Proof. done. Qed.

Lemma wp_discard {A} (c : M A) Φ w :
  wp c (λ r w', match r with
                | Normal _ => Φ (Normal ()) w'
                | Thrown e => Φ (Thrown e) w'
                end) w →
  wp (discard c) Φ w.
Proof. unfold wp, discard, bind. by destruct (c w) as [[a|e] w']. Qed.

(** A loop maintains whatever each iteration maintains. *)
Lemma wp_for_of {A} (I : world → Prop) (xs : list A) body w :
  I w →
  (∀ x w', I w' → wp (body x) (λ _ w'', I w'') w') →
  wp (for_of xs body) (λ _ w', I w') w.
Proof.
  intros Hw Hbody. revert w Hw.
  induction xs as [|x r IH]; intros w Hw; simpl; [done|].
  apply wp_bind. eapply wp_mono; [by apply Hbody|].
  intros [[]|e] w' Hw'; [by apply IH | done].
Qed.

End rules.

(** ** Stepping through method bodies *)

Ltac heap_cbn :=
  cbn [objs maps sets flags arrays fetches notified console
       set_objs set_maps set_sets set_flags set_arrays
       set_fetches set_notified set_console
       total loading _items _itemsCache seen onPaginate dispatch
       with_total with_loading with_items with_itemsCache with_seen
       with_dispatch fst snd] in *.

Ltac heap_lookup :=
  repeat first
    [ rewrite lookup_insert_eq
    | rewrite lookup_insert_ne by congruence
    | rewrite insert_insert_eq
    | match goal with
      | E : ?m !! ?l = _ |- context [?m !! ?l] => rewrite E
      end ].

Ltac heap_simpl := heap_cbn; heap_lookup; heap_cbn.

Ltac wp_step :=
  lazymatch goal with
  | |- wp (bind _ _) _ _ => apply wp_bind
  | |- wp (ret _) _ _ => apply wp_ret
  | |- wp (throw _) _ _ => apply wp_throw
  | |- wp (discard _) _ _ => apply wp_discard
  | |- wp (field _ _) _ _ => apply wp_field
  | |- wp (assign _ _) _ _ => apply wp_assign
  | |- wp (Map_entries _) _ _ => apply wp_Map_entries
  | |- wp (Map_has _ _) _ _ => apply wp_Map_has
  | |- wp (Map_get _ _) _ _ => apply wp_Map_get
  | |- wp (Map_set _ _ _) _ _ => apply wp_Map_set
  | |- wp (Map_delete _ _) _ _ => apply wp_Map_delete
  | |- wp (Map_clear _) _ _ => apply wp_Map_clear
  | |- wp (Set_elems _) _ _ => apply wp_Set_elems
  | |- wp (Set_has _ _) _ _ => apply wp_Set_has
  | |- wp (Set_add _ _) _ _ => apply wp_Set_add
  | |- wp (Set_clear _) _ _ => apply wp_Set_clear
  | |- wp (Flags_entries _) _ _ => apply wp_Flags_entries
  | |- wp (Flags_set _ _ _) _ _ => apply wp_Flags_set
  | |- wp (Flags_clear _) _ _ => apply wp_Flags_clear
  | |- wp (console_warn _ _ _) _ _ => apply wp_console_warn
  | |- wp (record_fetch _) _ _ => apply wp_record_fetch
  | |- wp (record_dispatch _ _) _ _ => apply wp_record_dispatch
  | |- wp new_Map _ _ => apply wp_new_Map; intros ? ?
  | |- wp (new_Set _) _ _ => apply wp_new_Set; intros ? ?
  | |- wp (new_Flags _) _ _ => apply wp_new_Flags; intros ? ?
  | |- wp (Array_from _) _ _ => apply wp_Array_from; intros ? ?
  | |- wp (new_Paginatable _) _ _ =>
      apply wp_new_Paginatable; intros ? ? ? ? ? ? ? ?
  end; heap_simpl.

(** When a lookup is not determined by the context, split on it. *)
Ltac wp_split :=
  lazymatch goal with
  | |- match ?m !! ?l with _ => _ end =>
      let E := fresh "E" in destruct (m !! l) eqn:E; heap_simpl
  | |- match ?x with Some _ => _ | None => _ end => destruct x eqn:?; heap_simpl
  | |- if ?b then _ else _ => destruct b eqn:?; heap_simpl
  | |- wp (match ?x with Some _ => _ | None => _ end) _ _ =>
      destruct x eqn:?; heap_simpl
  | |- wp (if ?b then _ else _) _ _ => destruct b eqn:?; heap_simpl
  end.

Ltac wp_go := repeat first [wp_step | wp_split].

(** Bring what is known about fresh locations into normal form. *)
Ltac heap_hyps :=
  repeat match goal with
    | E : <[_:=_]> _ !! _ = None |- _ =>
        apply lookup_insert_None in E as [E ?]
    | E : <[?i:=_]> ?m !! ?j = Some _, E' : ?m !! ?j = Some _ |- _ =>
        rewrite lookup_insert_ne in E by congruence
    | E : ?m !! ?j = Some _, E' : ?m !! ?j = Some _ |- _ =>
        rewrite E in E'; injection E' as <-
    | E : ?m !! ?j = Some _, E' : ?m !! ?j = None |- _ =>
        rewrite E in E'; discriminate E'
    end.

(** Solve [live_at] left to right, so that the store found by the first
    conjunct fixes the locations the others look up. *)
Ltac live_tac :=
  unfold live_at;
  split; [heap_simpl; reflexivity|];
  split; [heap_simpl; reflexivity|];
  split; heap_simpl; reflexivity.

Ltac grows_tac :=
  unfold grows; heap_cbn; split_and!; try done;
  repeat first [ done | apply insert_subseteq; done
               | apply insert_subseteq_r; [done|] ].

Section clone_facts.
Context {T : Type} `{HasId T}.
Implicit Types (w : world (T:=T)) (o l : loc).

Lemma grows_refl w : grows w w.
Proof. by unfold grows. Qed.

Lemma grows_trans w1 w2 w3 : grows w1 w2 → grows w2 w3 → grows w1 w3.
Proof.
  unfold grows. intros (?&?&?&?&?&?&?&?) (?&?&?&?&?&?&?&?).
  split_and!; try (by etrans); congruence.
Qed.


Lemma clone_spec o w : wp (clone o) (clone_post w o) w.
Proof.
  unfold clone. wp_go; heap_hyps.
  all: unfold clone_post; split_and!; [ grows_tac | |].
  all: try (intros l' m'; heap_cbn; rewrite ?lookup_insert_Some;
            solve [intuition (subst; auto)]).
  all: intros st S F Ho Hs Hf; heap_hyps; try congruence.
  eexists c, l0, l1. heap_simpl. by split_and!.
Qed.


Lemma dispatch_clone_spec o w : wp (dispatch_clone o) (dispatch_clone_post w o) w.
Proof.
  unfold dispatch_clone. wp_step. wp_step. wp_split.
  - wp_step. eapply wp_mono; [apply clone_spec|].
    intros r w' (Hg & Hm & Hl).
    assert (Hg' := Hg). destruct Hg' as (?&?&?&?&?&?&Hn&?).
    destruct r as [c|e].
    + destruct (dispatch p) as [d|] eqn:Ed; wp_go.
      * unfold dispatch_clone_post. heap_cbn.
        split_and!; try done; [rewrite Hn; eauto|].
        intros st S F Ho Hs Hf. heap_hyps.
        destruct (Hl _ _ _ E Hs Hf) as (c' & s' & l' & [= <-] & ?).
        exists c, s', l'. rewrite Hn, Ed in *. intuition auto.
      * unfold dispatch_clone_post. heap_cbn.
        split_and!; try done; [eauto|].
        intros st S F Ho Hs Hf. heap_hyps.
        destruct (Hl _ _ _ E Hs Hf) as (c' & s' & l' & [= <-] & ?).
        exists c, s', l'. rewrite Ed in *. intuition auto.
    + unfold dispatch_clone_post. split_and!; eauto.
      intros st S F Ho Hs Hf.
      by destruct (Hl _ _ _ Ho Hs Hf) as (c' & s' & l' & [=] & ?).
  - unfold dispatch_clone_post. split_and!; eauto.
    intros; congruence.
Qed.

End clone_facts.

(** ** The methods, one property at a time *)

Section methods.
Context {T : Type} `{HasId T}.
Implicit Types (w : world (T:=T)) (o l : loc) (st : Paginatable (T:=T))
  (m : list (Z * T)) (S : gset Z) (F : gmap Z bool).

(** To establish a fact about the outcome of a computation, step through
    it. *)
Lemma wp_outcome {A} (c : M A) w (P : completion A * world → Prop) :
  wp c (λ r w', P (r, w')) w → P (c w).
Proof. unfold wp. by destruct (c w). Qed.

Lemma world_eta w :
  {| maps := maps w; arrays := arrays w; sets := sets w; flags := flags w;
     objs := objs w; fetches := fetches w; notified := notified w;
     console := console w |} = w.
Proof. by destruct w. Qed.

Lemma items_cached w o st a :
  objs w !! o = Some st → _itemsCache st = Some a → items o w = (Normal a, w).
Proof.
  intros Ho Hc. pattern (items o w). apply wp_outcome.
  unfold items. wp_step. wp_step. rewrite Hc. by wp_step.
Qed.

Lemma items_uncached w o st m :
  objs w !! o = Some st → _itemsCache st = None →
  maps w !! _items st = Some m →
  ∃ a, arrays w !! a = None ∧
       items o w =
         (Normal a,
          set_objs (<[o := with_itemsCache (Some a) st]> (objs w))
            (set_arrays (<[a := entries_values m]> (arrays w)) w)).
Proof.
  intros Ho Hc Hm. pattern (items o w). apply wp_outcome.
  unfold items. wp_step. wp_step. rewrite Hc. wp_go. eauto.
Qed.

(** C5. Two consecutive reads of [.items] with nothing in between return
    the same array reference, and the second read changes nothing. With a
    cache present the first read returns it and changes nothing either;
    only with the cache absent is an array built, from the values of the
    item map in iteration order, at a location that was not in use. *)
Theorem items_reference_stable w o st m S F :
  live_at w o st m S F →
  ∃ a, (items o w).1 = Normal a ∧
       items o (items o w).2 = (Normal a, (items o w).2) ∧
       (∀ c, _itemsCache st = Some c → a = c ∧ (items o w).2 = w) ∧
       (_itemsCache st = None →
          arrays w !! a = None ∧
          arrays (items o w).2 !! a = Some (entries_values m)).
Proof.
  intros (Ho & Hm & Hs & Hf).
  destruct (_itemsCache st) as [c|] eqn:Hc.
  - rewrite (items_cached w o st c) by done. exists c. simpl.
    split_and!; [done | by eapply items_cached | by intros ? [= <-] | done].
  - destruct (items_uncached w o st m) as (a & Ha & ->); [done..|].
    exists a. simpl. split_and!; [done | | done |].
    + eapply items_cached; heap_simpl; done.
    + by heap_simpl.
Qed.

(** *** Queries *)

Lemma has_live w o st m k :
  objs w !! o = Some st → maps w !! _items st = Some m →
  has o k w = (Normal (entries_has k m), w).
Proof.
  intros Ho Hm. pattern (has o k w). apply wp_outcome.
  unfold has. by wp_go.
Qed.

(** [has] answers only on a store whose item map exists. *)
Lemma has_answer w o k b :
  (has o k w).1 = Normal b →
  ∃ st m, objs w !! o = Some st ∧ maps w !! _items st = Some m ∧
          b = entries_has k m.
Proof.
  pattern (has o k w). apply wp_outcome.
  unfold has. wp_go; simpl; intros [=]; eauto.
Qed.

Lemma get_live w o st m k :
  objs w !! o = Some st → maps w !! _items st = Some m →
  (get o k w).1 = Normal (entries_get k m).
Proof.
  intros Ho Hm. pattern (get o k w). apply wp_outcome.
  unfold get. wp_step. wp_step. wp_step. wp_step.
  destruct (entries_get k m); by wp_go.
Qed.

(** *** The short circuits *)

Lemma add_present w o st m x :
  objs w !! o = Some st → maps w !! _items st = Some m →
  entries_has (id x) m = true →
  add o x w = (Normal (), w).
Proof.
  intros Ho Hm Hx. pattern (add o x w). apply wp_outcome.
  unfold add, has. wp_step. wp_step. wp_step. wp_step. rewrite Hx. by wp_step.
Qed.

Lemma remove_absent w o st m k :
  objs w !! o = Some st → maps w !! _items st = Some m →
  entries_has k m = false →
  remove o k w =
    (Normal (),
     set_console
       (console w ++ [Warn messages.NOT_FOUND messages.FAILED_TO_REMOVE k]) w).
Proof.
  intros Ho Hm Hk. pattern (remove o k w). apply wp_outcome.
  unfold remove. wp_step. wp_step. wp_step. wp_step. rewrite Hk. simpl.
  wp_step. rewrite entries_delete_absent, insert_id by done.
  reflexivity.
Qed.

Lemma update_absent w o st m x :
  objs w !! o = Some st → maps w !! _items st = Some m →
  entries_has (id x) m = false →
  update o x w =
    (Normal (),
     set_console
       (console w ++ [Warn messages.NOT_FOUND messages.FAILED_TO_UPDATE (id x)])
       w).
Proof.
  intros Ho Hm Hx. pattern (update o x w). apply wp_outcome.
  unfold update, has. wp_step. wp_step. wp_step. wp_step. rewrite Hx. simpl.
  by wp_step.
Qed.

(** C6. Each short circuit on its own. [add] of an item whose identity
    is present returns normally and leaves the world exactly as it was.
    [remove] of an identity that is absent, and [update] of an item whose
    identity is absent, return normally and leave the world as it was up
    to the one diagnostic they print. In all three cases the [notified]
    trace, every item map, every cached array, every store (with its
    [total]), every seen set, every loading map and the [fetches] trace
    are those of the world before. The store may hold nothing at all:
    each case has its own condition, read off [has]. *)
Theorem short_circuits_are_silent w o :
  (∀ x, (has o (id x) w).1 = Normal true → add o x w = (Normal (), w)) ∧
  (∀ k, (has o k w).1 = Normal false →
     remove o k w =
       (Normal (),
        set_console
          (console w ++ [Warn messages.NOT_FOUND messages.FAILED_TO_REMOVE k])
          w)) ∧
  (∀ y, (has o (id y) w).1 = Normal false →
     update o y w =
       (Normal (),
        set_console
          (console w ++
             [Warn messages.NOT_FOUND messages.FAILED_TO_UPDATE (id y)]) w)).
Proof.
  split_and!.
  - intros x (st & m & Ho & Hm & Hx)%has_answer. by eapply add_present.
  - intros k (st & m & Ho & Hm & Hk)%has_answer. by eapply remove_absent.
  - intros y (st & m & Ho & Hm & Hy)%has_answer. by eapply update_absent.
Qed.

(** *** [reset] *)

Lemma reset_live w o st m S F :
  live_at w o st m S F →
  reset o w =
    (Normal o,
     set_flags (<[loading st := ∅]> (flags w))
       (set_sets (<[seen st := ∅]> (sets w))
          (set_objs (<[o := with_total 0 (with_itemsCache None st)]> (objs w))
             (set_maps (<[_items st := []]> (maps w)) w)))).
Proof.
  intros (Ho & Hm & Hs & Hf). pattern (reset o w). apply wp_outcome.
  unfold reset. by wp_go.
Qed.

(** C3, amended. [reset] returns the store it was called on and never
    calls the dispatch function: the [notified] trace, like the [fetches]
    and [console] traces, is the one before the call. What it does is
    empty the item map, drop the cached array, zero [total] and empty the
    seen set and the loading map of the store. *)
Theorem reset_clears_without_notifying w o st m S F :
  live_at w o st m S F →
  (reset o w).1 = Normal o ∧
  notified (reset o w).2 = notified w ∧
  fetches (reset o w).2 = fetches w ∧
  console (reset o w).2 = console w ∧
  live_at (reset o w).2 o (with_total 0 (with_itemsCache None st)) [] ∅ ∅.
Proof.
  intros Hl. rewrite (reset_live _ _ _ _ _ _ Hl).
  destruct Hl as (Ho & Hm & Hs & Hf).
  unfold live_at. heap_simpl. by split_and!.
Qed.

(** *** The merge loop and the notifying mutations on a live store *)

Lemma merge_loop w o st m data Φ :
  objs w !! o = Some st → maps w !! _items st = Some m →
  Φ (Normal ()) (set_maps (<[_items st := merge data m]> (maps w)) w) →
  wp (for_of data
        (λ item, bind (field o _items) (λ l, Map_set l (id item) item))) Φ w.
Proof.
  revert w m. induction data as [|x r IH]; intros w m Ho Hm HΦ; simpl in *.
  - rewrite insert_id in HΦ by done. unfold set_maps in HΦ.
    by rewrite world_eta in HΦ.
  - wp_go. eapply IH; heap_simpl; [done..|].
    unfold merge in HΦ. by heap_simpl.
Qed.

Lemma dispatch_clone_live w o :
  dispatch_clone_post w o (dispatch_clone o w).1 (dispatch_clone o w).2.
Proof. apply dispatch_clone_spec. Qed.

Lemma dispatch_clone_outcome w o st S F :
  objs w !! o = Some st → sets w !! seen st = Some S →
  flags w !! loading st = Some F →
  (dispatch_clone o w).1 =
    match dispatch st with
    | Some _ => Normal ()
    | None => Thrown TypeError_not_a_function
    end.
Proof.
  intros Ho Hs Hf.
  destruct (dispatch_clone_live w o) as (_&_&_&_&_&_&_&_&_&Hl).
  destruct (Hl _ _ _ Ho Hs Hf) as (c & s' & l' & _ & _ & _ & _ & _ & _ & Hd).
  destruct (dispatch st); by destruct Hd.
Qed.

Lemma add_absent w o st m x :
  objs w !! o = Some st → maps w !! _items st = Some m →
  entries_has (id x) m = false →
  add o x w =
    dispatch_clone o
      (set_maps (<[_items st := entries_set (id x) x m]> (maps w))
         (set_objs (<[o := with_itemsCache None st]> (objs w)) w)).
Proof.
  intros Ho Hm Hx. pattern (add o x w). apply wp_outcome.
  unfold add, has. wp_step. wp_step. wp_step. wp_step. rewrite Hx.
  wp_go. unfold wp. by destruct (dispatch_clone _ _).
Qed.

Lemma remove_present w o st m k :
  objs w !! o = Some st → maps w !! _items st = Some m →
  entries_has k m = true →
  remove o k w =
    dispatch_clone o
      (set_objs (<[o := with_itemsCache None st]> (objs w))
         (set_maps (<[_items st := entries_delete k m]> (maps w)) w)).
Proof.
  intros Ho Hm Hk. pattern (remove o k w). apply wp_outcome.
  unfold remove. wp_step. wp_step. wp_step. wp_step. rewrite Hk. simpl.
  wp_go. unfold wp. by destruct (dispatch_clone _ _).
Qed.

Lemma update_present w o st m x :
  objs w !! o = Some st → maps w !! _items st = Some m →
  entries_has (id x) m = true →
  update o x w =
    dispatch_clone o
      (set_objs (<[o := with_itemsCache None st]> (objs w))
         (set_maps (<[_items st := entries_set (id x) x m]> (maps w)) w)).
Proof.
  intros Ho Hm Hx. pattern (update o x w). apply wp_outcome.
  unfold update, has. wp_step. wp_step. wp_step. wp_step. rewrite Hx. simpl.
  wp_go. unfold wp. by destruct (dispatch_clone _ _).
Qed.

(** *** [paginate] *)

Lemma paginate_enter_seen w o st S p :
  objs w !! o = Some st → sets w !! seen st = Some S → p ∈ S →
  paginate_enter o p w = (Normal None, w).
Proof.
  intros Ho Hs Hp. pattern (paginate_enter o p w). apply wp_outcome.
  unfold paginate_enter. wp_step. wp_step. wp_step. wp_step.
  rewrite bool_decide_eq_true_2 by done. by wp_step.
Qed.

Lemma paginate_enter_unseen w o st m S F p :
  live_at w o st m S F → p ∉ S →
  paginate_enter o p w =
    (Normal (Some (onPaginate st p)),
     set_fetches (fetches w ++ [p])
       (set_flags (<[loading st := <[p := true]> F]> (flags w))
          (set_sets (<[seen st := {[p]} ∪ S]> (sets w)) w))).
Proof.
  intros (Ho & Hm & Hs & Hf) Hp.
  pattern (paginate_enter o p w). apply wp_outcome.
  unfold paginate_enter. wp_step. wp_step. wp_step. wp_step.
  rewrite bool_decide_eq_false_2 by done. by wp_go.
Qed.

Lemma paginate_resume_resolved w o st m S F p data n :
  live_at w o st m S F →
  paginate_resume o p (Resolved data n) w =
    dispatch_clone o
      (set_maps (<[_items st := merge (default [] data) m]> (maps w))
         (set_objs (<[o := with_total n st]> (objs w))
            (set_flags (<[loading st := <[p := false]> F]> (flags w)) w))).
Proof.
  intros (Ho & Hm & Hs & Hf).
  pattern (paginate_resume o p (Resolved data n) w). apply wp_outcome.
  unfold paginate_resume. wp_go.
  eapply merge_loop; heap_simpl; [done..|].
  wp_go. unfold wp. by destruct (dispatch_clone _ _).
Qed.

Lemma paginate_seen w o st S p :
  objs w !! o = Some st → sets w !! seen st = Some S → p ∈ S →
  paginate o p w = (Normal (), w).
Proof.
  intros Ho Hs Hp. unfold paginate, bind.
  by rewrite (paginate_enter_seen w o st S p).
Qed.

Lemma paginate_unseen w o st m S F p :
  live_at w o st m S F → p ∉ S →
  paginate o p w =
    paginate_resume o p (onPaginate st p)
      (set_fetches (fetches w ++ [p])
         (set_flags (<[loading st := <[p := true]> F]> (flags w))
            (set_sets (<[seen st := {[p]} ∪ S]> (sets w)) w))).
Proof.
  intros Hl Hp. unfold paginate, bind.
  by rewrite (paginate_enter_unseen w o st m S F p).
Qed.

(** After [this.dispatch(this.clone())] the store and its collections are
    as before: the call only allocates. *)
Lemma dispatch_clone_keeps_live w o st m S F :
  live_at w o st m S F → live_at (dispatch_clone o w).2 o st m S F.
Proof.
  intros (Ho & Hm & Hs & Hf).
  destruct (dispatch_clone_live w o) as (?&?&?&?&?&_).
  unfold live_at. split_and!; by eapply lookup_weaken.
Qed.

Lemma paginate_rejected w o st m S F p reason :
  live_at w o st m S F → p ∉ S → onPaginate st p = Rejected reason →
  paginate o p w =
    (Thrown (FetchRejected reason),
     set_fetches (fetches w ++ [p])
       (set_flags (<[loading st := <[p := true]> F]> (flags w))
          (set_sets (<[seen st := {[p]} ∪ S]> (sets w)) w))).
Proof.
  intros Hl Hp Hr. rewrite (paginate_unseen w o st m S F p) by done.
  by rewrite Hr.
Qed.

(** The general form of the defect behind C2: when the promise rejects,
    [paginate] rethrows and the world is the one left at the [await], with
    the page marked seen and its loading flag still [true]. *)
Lemma paginate_rejected_keeps_loading w o st m S F p reason :
  live_at w o st m S F → p ∉ S → onPaginate st p = Rejected reason →
  (paginate o p w).1 = Thrown (FetchRejected reason) ∧
  live_at (paginate o p w).2 o st m ({[p]} ∪ S) (<[p := true]> F) ∧
  notified (paginate o p w).2 = notified w.
Proof.
  intros Hl Hp Hr. rewrite (paginate_rejected w o st m S F p reason) by done.
  destruct Hl as (Ho & Hm & Hs & Hf).
  unfold live_at. heap_simpl. by split_and!.
Qed.

Lemma paginate_resolved w o st m S F p data n :
  live_at w o st m S F → p ∉ S → onPaginate st p = Resolved data n →
  paginate o p w =
    dispatch_clone o
      (set_maps (<[_items st := merge (default [] data) m]> (maps w))
         (set_objs (<[o := with_total n st]> (objs w))
            (set_fetches (fetches w ++ [p])
               (set_flags (<[loading st := <[p := false]> F]> (flags w))
                  (set_sets (<[seen st := {[p]} ∪ S]> (sets w)) w))))).
Proof.
  intros Hl Hp Hr. rewrite (paginate_unseen w o st m S F p) by done.
  rewrite Hr. destruct Hl as (Ho & Hm & Hs & Hf).
  erewrite paginate_resume_resolved; last first.
  { unfold live_at. heap_simpl. by split_and!. }
  heap_simpl. reflexivity.
Qed.

Lemma paginate_resolved_live w o st m S F p data n :
  live_at w o st m S F → p ∉ S → onPaginate st p = Resolved data n →
  live_at (paginate o p w).2 o (with_total n st)
    (merge (default [] data) m) ({[p]} ∪ S) (<[p := false]> F) ∧
  fetches (paginate o p w).2 = fetches w ++ [p] ∧
  arrays w ⊆ arrays (paginate o p w).2.
Proof.
  intros Hl Hp Hr. rewrite (paginate_resolved w o st m S F p data n) by done.
  destruct Hl as (Ho & Hm & Hs & Hf).
  split_and!.
  - apply dispatch_clone_keeps_live. unfold live_at. heap_simpl. by split_and!.
  - by destruct (dispatch_clone_live
      (set_maps (<[_items st := merge (default [] data) m]> (maps w))
         (set_objs (<[o := with_total n st]> (objs w))
            (set_fetches (fetches w ++ [p])
               (set_flags (<[loading st := <[p := false]> F]> (flags w))
                  (set_sets (<[seen st := {[p]} ∪ S]> (sets w)) w))))) o)
      as (_&_&_&_&_&->&_).
  - by destruct (dispatch_clone_live
      (set_maps (<[_items st := merge (default [] data) m]> (maps w))
         (set_objs (<[o := with_total n st]> (objs w))
            (set_fetches (fetches w ++ [p])
               (set_flags (<[loading st := <[p := false]> F]> (flags w))
                  (set_sets (<[seen st := {[p]} ∪ S]> (sets w)) w))))) o)
      as (_&?&_).
Qed.

(** The general form of the defect behind C1: a successful [paginate]
    merges the fetched items into the item map and leaves [_itemsCache]
    as it was, so a store that had served [.items] before keeps serving
    the same array, whose contents are those of before the merge. *)
Lemma paginate_keeps_cached_array w o st m S F p data n a :
  live_at w o st m S F → p ∉ S → onPaginate st p = Resolved data n →
  _itemsCache st = Some a →
  let w' := (paginate o p w).2 in
  maps w' !! _items st = Some (merge (default [] data) m) ∧
  items o w' = (Normal a, w') ∧
  (∀ vs, arrays w !! a = Some vs → arrays w' !! a = Some vs).
Proof.
  intros Hl Hp Hr Ha w'. subst w'.
  destruct (paginate_resolved_live w o st m S F p data n) as
    ((Ho' & Hm' & _) & _ & Harr); [done..|].
  split_and!; [done | by eapply items_cached |].
  intros vs Hvs. by eapply lookup_weaken.
Qed.

(** C4. On a store on which page [p] has not been seen, two calls of
    [paginate(p)] in sequence invoke [onPaginate] once, for [p]: the first
    call appends [p] to the [fetches] trace whatever the promise settles
    to (and whether or not a dispatch function is registered), the second
    call returns normally and leaves the world, traces included, exactly
    as the first call left it, so that after both calls the trace has
    gained the one entry [p]. The second call is skipped in the same way
    when it is issued while the first one is suspended at its [await]. *)
Theorem paginate_fetches_once w o st m S F p :
  live_at w o st m S F → p ∉ S →
  fetches (paginate o p w).2 = fetches w ++ [p] ∧
  paginate o p (paginate o p w).2 = (Normal (), (paginate o p w).2) ∧
  fetches (paginate o p (paginate o p w).2).2 = fetches w ++ [p] ∧
  paginate o p (paginate_enter o p w).2 =
    (Normal (), (paginate_enter o p w).2).
Proof.
  intros Hl Hp.
  assert (fetches (paginate o p w).2 = fetches w ++ [p] ∧
          paginate o p (paginate o p w).2 = (Normal (), (paginate o p w).2) ∧
          paginate o p (paginate_enter o p w).2 =
            (Normal (), (paginate_enter o p w).2)) as (H1 & H2 & H3);
    [| by rewrite H2].
  split_and!.
  - destruct (onPaginate st p) as [data n|reason] eqn:Hr.
    + by destruct (paginate_resolved_live w o st m S F p data n) as (_ & ? & _).
    + by rewrite (paginate_rejected w o st m S F p reason).
  - destruct (onPaginate st p) as [data n|reason] eqn:Hr.
    + destruct (paginate_resolved_live w o st m S F p data n) as
        ((Ho' & _ & Hs' & _) & _); [done..|].
      eapply paginate_seen; [done..|]. set_solver.
    + rewrite (paginate_rejected w o st m S F p reason) by done.
      destruct Hl as (Ho & Hm & Hs & Hf).
      eapply paginate_seen; heap_simpl; [done..|]. set_solver.
  - rewrite (paginate_enter_unseen w o st m S F p) by done.
    destruct Hl as (Ho & Hm & Hs & Hf).
    eapply paginate_seen; heap_simpl; [done..|]. set_solver.
Qed.

(** *** What a call on a live store can touch *)



Lemma wp_dispatch_clone o w Φ :
  (∀ r w', dispatch_clone_post w o r w' → Φ r w') →
  wp (dispatch_clone o) Φ w.
Proof. intros HΦ. eapply wp_mono; [apply dispatch_clone_spec | done]. Qed.

Ltac frame_leaf :=
  unfold call_frame, live_at; heap_cbn;
  split_and!;
  [ do 4 eexists;
    split; [split; [heap_simpl; reflexivity|];
            split; [heap_simpl; reflexivity|];
            split; heap_simpl; reflexivity|];
    split_and!; heap_simpl; try done
  | intros ? ? ? ?; heap_simpl; try done
  | intros ? ? ? ?; heap_simpl; try done
  | intros ? ? ? ?; heap_simpl; try done
  | try done; repeat first [done | apply insert_subseteq; done
                                 | apply insert_subseteq_r; [done|]]
  | try done ].

Lemma call_frame_dispatch_clone o st w w1 r w' st1 m1 S1 F1 :
  dispatch st1 = dispatch st →
  live_at w1 o st1 m1 S1 F1 →
  seen st1 = seen st → loading st1 = loading st → _items st1 = _items st →
  onPaginate st1 = onPaginate st →
  (is_Some (dispatch st) → is_Some (dispatch st1)) →
  (∀ l x, l ≠ o → objs w !! l = Some x → objs w1 !! l = Some x) →
  (∀ l x, l ≠ seen st → sets w !! l = Some x → sets w1 !! l = Some x) →
  (∀ l x, l ≠ loading st → flags w !! l = Some x → flags w1 !! l = Some x) →
  arrays w ⊆ arrays w1 →
  dispatch_clone_post w1 o r w' →
  call_frame o st w false r w'.
Proof.
  intros E0 (Ho & Hm & Hs & Hf) E1 E2 E3 E4 Hd Hobjs Hsets Hflags Harr
    (?&?&?&?&?&_&_&_&_&Hl).
  unfold call_frame, live_at. split_and!.
  - exists st1, m1, S1, F1. split_and!; try done; by eapply lookup_weaken.
  - intros l x Hne Hx. eapply lookup_weaken; [by apply Hobjs | done].
  - intros l x Hne Hx. eapply lookup_weaken; [by apply Hsets | done].
  - intros l x Hne Hx. eapply lookup_weaken; [by apply Hflags | done].
  - by etrans.
  - intros [d Hd']%Hd.
    destruct (Hl _ _ _ Ho Hs Hf) as (c & s' & l' & _ & _ & _ & _ & _ & _ & Hr).
    rewrite Hd' in Hr. by destruct Hr as [-> _].
Qed.

Ltac frame_clone :=
  apply wp_dispatch_clone;
  let r := fresh "r" in let w' := fresh "w'" in let Hpost := fresh "Hpost" in
  intros r w' Hpost;
  refine (call_frame_dispatch_clone _ _ _ _ r w' _ _ _ _
            _ _ _ _ _ _ _ _ _ _ _ Hpost);
  [ | unfold live_at;
    split; [heap_simpl; reflexivity|];
    split; [heap_simpl; reflexivity|];
    split; heap_simpl; reflexivity | .. ];
  first [ heap_cbn; done | intros; heap_simpl; done ].

Ltac frame_auto :=
  lazymatch goal with
  | |- wp (dispatch_clone _) _ _ => frame_clone
  | _ => frame_leaf
  end.

Lemma perform_frame w o st m S F c :
  live_at w o st m S F →
  call_frame o st w (is_setDispatch c) (perform o c w).1 (perform o c w).2.
Proof.
  intros (Ho & Hm & Hs & Hf).
  change (wp (perform o c) (call_frame o st w (is_setDispatch c)) w).
  destruct c; unfold perform, is_setDispatch.
  - (* paginate *)
    unfold paginate, paginate_enter, paginate_resume. wp_go.
    + frame_leaf.
    + destruct (onPaginate st page) as [data n|reason]; wp_go.
      * eapply merge_loop; heap_simpl; [done..|].
        frame_clone.
      * frame_leaf.
  - unfold reset. wp_go. frame_leaf.
  - unfold add, has. wp_go; frame_auto.
  - unfold remove. wp_go; frame_auto.
  - unfold update, has. wp_go; frame_auto.
  - unfold setDispatch. wp_go. frame_leaf.
  - unfold items. wp_go; frame_leaf.
  - unfold has. wp_go. frame_leaf.
  - unfold get. wp_go; frame_leaf.
Qed.

Lemma perform_all_live w o st m S F cs :
  live_at w o st m S F →
  ∃ st' m' S' F',
    live_at (perform_all o cs w) o st' m' S' F' ∧
    seen st' = seen st ∧ loading st' = loading st ∧
    (is_Some (dispatch st) → is_Some (dispatch st')) ∧
    (Forall (λ c, is_setDispatch c = false) cs → dispatch st' = dispatch st).
Proof.
  revert w st m S F. induction cs as [|c cs IH]; intros w st m S F Hl; simpl.
  - exists st, m, S, F. by split_and!.
  - destruct (perform_frame w o st m S F c Hl) as
      ((st1 & m1 & S1 & F1 & Hl1 & E1 & E2 & _ & _ & Hd1 & Hk1) & _).
    destruct (IH _ _ _ _ _ Hl1) as (st' & m' & S' & F' & Hl' & ? & ? & Hd' & Hk').
    exists st', m', S', F'. split_and!; [done | congruence | congruence | auto |].
    intros [Hc Hcs]%Forall_cons. rewrite Hk', Hk1 by done. done.
Qed.

Lemma new_Paginatable_live f w :
  ∃ c st0,
    (new_Paginatable f w).1 = Normal c ∧ objs w !! c = None ∧
    live_at (new_Paginatable f w).2 c st0 [] ∅ ∅ ∧
    dispatch st0 = None ∧ _itemsCache st0 = None ∧ total st0 = 0 ∧
    onPaginate st0 = f.
Proof.
  pattern (new_Paginatable f w). apply wp_outcome. wp_go.
  do 2 eexists. split; [done|]. split; [done|]. split; [live_tac|]. done.
Qed.

(** C9. A store whose [dispatch] is still undefined, as it is after
    construction and after any calls other than [setDispatch], fails every
    notifying mutation with the [TypeError] of calling [undefined]: [add]
    of a new identity, [remove] and [update] of a present one, and
    [paginate] of an unseen page whose promise resolves. Once
    [setDispatch] has been called, no later call on the store, after any
    sequence of calls, throws that [TypeError]. *)
Theorem notifying_mutations_need_dispatch w o st m S F :
  live_at w o st m S F →
  (dispatch st = None →
     (∀ x, entries_has (id x) m = false →
           (add o x w).1 = Thrown TypeError_not_a_function) ∧
     (∀ k, entries_has k m = true →
           (remove o k w).1 = Thrown TypeError_not_a_function) ∧
     (∀ x, entries_has (id x) m = true →
           (update o x w).1 = Thrown TypeError_not_a_function) ∧
     (∀ p data n, p ∉ S → onPaginate st p = Resolved data n →
           (paginate o p w).1 = Thrown TypeError_not_a_function)) ∧
  (∀ f cs, Forall (λ c, is_setDispatch c = false) cs →
     ∃ c st' m' S' F',
       (new_Paginatable f w).1 = Normal c ∧
       live_at (perform_all c cs (new_Paginatable f w).2) c st' m' S' F' ∧
       dispatch st' = None) ∧
  (∀ d cs c,
     (perform o c (perform_all o cs (setDispatch o d w).2)).1
       ≠ Thrown TypeError_not_a_function).
Proof.
  intros Hl. split_and!.
  - destruct Hl as (Ho & Hm & Hs & Hf). intros Hd. split_and!.
    + intros x Hx. rewrite (add_absent w o st m x) by done.
      rewrite (dispatch_clone_outcome _ o (with_itemsCache None st) S F)
        by (heap_simpl; done).
      heap_cbn. by rewrite Hd.
    + intros k Hk. rewrite (remove_present w o st m k) by done.
      rewrite (dispatch_clone_outcome _ o (with_itemsCache None st) S F)
        by (heap_simpl; done).
      heap_cbn. by rewrite Hd.
    + intros x Hx. rewrite (update_present w o st m x) by done.
      rewrite (dispatch_clone_outcome _ o (with_itemsCache None st) S F)
        by (heap_simpl; done).
      heap_cbn. by rewrite Hd.
    + intros p data n Hp Hr.
      rewrite (paginate_resolved w o st m S F p data n) by done.
      rewrite (dispatch_clone_outcome _ o (with_total n st) ({[p]} ∪ S)
                 (<[p := false]> F)) by (heap_simpl; done).
      heap_cbn. by rewrite Hd.
  - intros f cs Hcs.
    destruct (new_Paginatable_live f w) as (c & st0 & Hc & _ & Hl0 & Hd0 & _).
    destruct (perform_all_live _ c _ _ _ _ cs Hl0) as
      (st' & m' & S' & F' & Hl' & _ & _ & _ & Hk).
    exists c, st', m', S', F'. split_and!; [done..|]. by rewrite Hk.
  - intros d cs c.
    assert (live_at (setDispatch o d w).2 o (with_dispatch (Some d) st) m S F)
      as Hl1.
    { destruct Hl as (Ho & Hm & Hs & Hf).
      pattern (setDispatch o d w). apply wp_outcome.
      unfold setDispatch. wp_go. unfold live_at. heap_simpl. by split_and!. }
    destruct (perform_all_live _ o _ _ _ _ cs Hl1) as
      (st' & m' & S' & F' & Hl' & _ & _ & Hd' & _).
    destruct (perform_frame _ o _ _ _ _ c Hl') as (_ & _ & _ & _ & _ & Hr).
    apply Hr, Hd'. by eexists.
Qed.

(** X19. [update] of an item whose identity is present keeps the identity
    where it is in iteration order. With [i] the position of the key in
    the item map, the next read of [.items] returns a newly allocated
    array equal to the values of the map before the call with position [i]
    replaced by the new item: same length, the new item at [i], every
    other position as before. The keys of the map are unchanged. When the
    cache of the store was in step with the map (absent, or holding the
    values of the map), those values are what a read of [.items] before
    the call returns. *)
Theorem update_keeps_position w o st m S F x i :
  live_at w o st m S F →
  entries_index (id x) m = Some i →
  let w1 := (update o x w).2 in
  ∃ a vs,
    (items o w1).1 = Normal a ∧ arrays w !! a = None ∧
    arrays (items o w1).2 !! a = Some vs ∧
    vs = <[i := x]> (entries_values m) ∧
    length vs = length (entries_values m) ∧
    vs !! i = Some x ∧
    (∀ j, j ≠ i → vs !! j = entries_values m !! j) ∧
    (∃ m1, maps w1 !! _items st = Some m1 ∧ m1.*1 = m.*1) ∧
    ((∀ c, _itemsCache st = Some c → arrays w !! c = Some (entries_values m)) →
     ∃ a0, (items o w).1 = Normal a0 ∧
           arrays (items o w).2 !! a0 = Some (entries_values m)).
Proof.
  intros Hl Hi w1. subst w1.
  assert (entries_has (id x) m = true) as Hx by (apply entries_has_index; eauto).
  destruct Hl as (Ho & Hm & Hs & Hf).
  rewrite (update_present w o st m x) by done.
  set (w0 := set_objs _ _).
  assert (live_at w0 o (with_itemsCache None st)
            (entries_set (id x) x m) S F) as Hl0.
  { unfold live_at, w0. heap_simpl. by split_and!. }
  apply dispatch_clone_keeps_live in Hl0 as Hl1.
  destruct (dispatch_clone_live w0 o) as (_ & Harr & _).
  destruct Hl1 as (Ho1 & Hm1 & _).
  destruct (items_uncached _ o _ _ Ho1 eq_refl Hm1) as (a & Ha & ->).
  exists a, (<[i := x]> (entries_values m)). heap_simpl.
  assert (i < length (entries_values m))%nat as Hlt.
  { unfold entries_values. rewrite length_fmap. by eapply entries_index_lt. }
  split_and!.
  - done.
  - eapply lookup_weaken_None; [exact Ha|]. by unfold w0 in Harr.
  - f_equal. by apply entries_set_values_present.
  - done.
  - by rewrite length_insert.
  - by apply list_lookup_insert_eq.
  - intros j Hj. by apply list_lookup_insert_ne.
  - exists (entries_set (id x) x m). split; [done|].
    by apply entries_set_keys_present.
  - intros Hco. destruct (_itemsCache st) as [c|] eqn:Hc.
    + exists c. rewrite (items_cached w o st c) by done. simpl. auto.
    + destruct (items_uncached w o st m Ho Hc Hm) as (a0 & Ha0 & ->).
      exists a0. by heap_simpl.
Qed.

(** *** Snapshots handed to the dispatch function *)

(** A call either leaves the [notified] trace alone or ends in
    [this.dispatch(this.clone())] on a live store. *)
Lemma perform_notifies w o st m S F c :
  live_at w o st m S F →
  notified (perform o c w).2 = notified w ∨
  ∃ w1 st1 m1 S1 F1,
    live_at w1 o st1 m1 S1 F1 ∧ notified w1 = notified w ∧
    dispatch_clone_post w1 o (perform o c w).1 (perform o c w).2.
Proof.
  intros (Ho & Hm & Hs & Hf).
  change (wp (perform o c)
            (λ r w', notified w' = notified w ∨
                     ∃ w1 st1 m1 S1 F1,
                       live_at w1 o st1 m1 S1 F1 ∧ notified w1 = notified w ∧
                       dispatch_clone_post w1 o r w') w).
  assert (∀ w1 st1 m1 S1 F1,
            live_at w1 o st1 m1 S1 F1 → notified w1 = notified w →
            wp (dispatch_clone o)
              (λ r w', notified w' = notified w ∨
                       ∃ w1 st1 m1 S1 F1,
                         live_at w1 o st1 m1 S1 F1 ∧
                         notified w1 = notified w ∧
                         dispatch_clone_post w1 o r w') w1) as Hclone.
  { intros w1 st1 m1 S1 F1 Hl1 Hn1. apply wp_dispatch_clone.
    intros r w' Hpost. right. by exists w1, st1, m1, S1, F1. }
  destruct c; unfold perform.
  - unfold paginate, paginate_enter, paginate_resume. wp_go; [by left|].
    destruct (onPaginate st page) as [data n|reason]; wp_go; [|by left].
    eapply merge_loop; heap_simpl; [done..|].
    eapply Hclone; [live_tac | done].
  - unfold reset. wp_go. by left.
  - unfold add, has. wp_go; [by left|]. eapply Hclone; [live_tac | done].
  - unfold remove. wp_go; [by left|]. eapply Hclone; [live_tac | done].
  - unfold update, has. wp_go; [by left|]. eapply Hclone; [live_tac | done].
  - unfold setDispatch. wp_go. by left.
  - unfold items. wp_go; by left.
  - unfold has. wp_go. by left.
  - unfold get. wp_go; by left.
Qed.

(** Calls on [o] leave alone a store, a seen set and a loading map that
    are not those of [o]. *)
Lemma perform_all_isolated w o st m S F snap cst Sc Fc cs :
  live_at w o st m S F →
  snap ≠ o → seen cst ≠ seen st → loading cst ≠ loading st →
  objs w !! snap = Some cst → sets w !! seen cst = Some Sc →
  flags w !! loading cst = Some Fc →
  objs (perform_all o cs w) !! snap = Some cst ∧
  sets (perform_all o cs w) !! seen cst = Some Sc ∧
  flags (perform_all o cs w) !! loading cst = Some Fc.
Proof.
  revert w st m S F. induction cs as [|c cs IH];
    intros w st m S F Hl Hne Hs Hf Hsnap Hsc Hfc; simpl; [done|].
  destruct (perform_frame w o st m S F c Hl) as
    ((st1 & m1 & S1 & F1 & Hl1 & E1 & E2 & _) & Hobjs & Hsets & Hflags & _).
  eapply (IH _ st1 m1 S1 F1); eauto; congruence.
Qed.

(** C8. Whenever a call on a live store appends a snapshot to the
    [notified] trace, the snapshot is a store other than the one mutated
    whose [_items] and [_itemsCache] fields hold the very references of
    the mutated store and whose [dispatch] is the callback that was called
    (they also agree on [total] and [onPaginate]); its [seen] and
    [loading] fields refer to collections other than those of the mutated
    store, which at delivery hold the same pages and flags. Whatever calls
    are made on the mutated store afterwards, the snapshot's fields, its
    seen set and its loading map stay as delivered. *)
Theorem snapshots_share_items_and_copy_pages w o st m S F c d snap :
  live_at w o st m S F →
  notified (perform o c w).2 = notified w ++ [(d, snap)] →
  let w' := (perform o c w).2 in
  ∃ st' cst Sc Fc,
    objs w' !! o = Some st' ∧ objs w' !! snap = Some cst ∧ snap ≠ o ∧
    _items cst = _items st' ∧ _itemsCache cst = _itemsCache st' ∧
    dispatch cst = dispatch st' ∧ dispatch st' = Some d ∧
    total cst = total st' ∧ onPaginate cst = onPaginate st' ∧
    seen cst ≠ seen st' ∧ loading cst ≠ loading st' ∧
    sets w' !! seen cst = Some Sc ∧ sets w' !! seen st' = Some Sc ∧
    flags w' !! loading cst = Some Fc ∧ flags w' !! loading st' = Some Fc ∧
    ∀ cs,
      objs (perform_all o cs w') !! snap = Some cst ∧
      sets (perform_all o cs w') !! seen cst = Some Sc ∧
      flags (perform_all o cs w') !! loading cst = Some Fc.
Proof.
  intros Hl Hn w'. subst w'.
  destruct (perform_notifies w o st m S F c Hl) as
    [Hsame | (w1 & st1 & m1 & S1 & F1 & Hl1 & Hn1 & Hpost)].
  { rewrite Hsame in Hn. apply (f_equal length) in Hn.
    rewrite length_app in Hn. simpl in Hn. lia. }
  destruct Hl1 as (Ho1 & Hm1 & Hs1 & Hf1).
  destruct Hpost as (Hmaps & _ & Hsets & Hflags & Hobjs & _ & _ & _ & _ & Hlive).
  destruct (Hlive _ _ _ Ho1 Hs1 Hf1) as
    (c' & s' & l' & Hc' & Hs' & Hf' & Hcobj & Hcs & Hcf & Hd).
  destruct (dispatch st1) as [d'|] eqn:Ed; destruct Hd as [Hr Hn'].
  2: { rewrite Hn', Hn1 in Hn. apply (f_equal length) in Hn.
       rewrite length_app in Hn. simpl in Hn. lia. }
  rewrite Hn', Hn1 in Hn. apply app_inj_tail in Hn as [_ [= -> ->]].
  assert (objs (perform o c w).2 !! o = Some st1) as Ho'
    by (by eapply lookup_weaken).
  assert (sets (perform o c w).2 !! seen st1 = Some S1) as Hs1'
    by (by eapply lookup_weaken).
  assert (flags (perform o c w).2 !! loading st1 = Some F1) as Hf1'
    by (by eapply lookup_weaken).
  eexists st1, _, S1, F1.
  split_and!; try done; heap_cbn; try congruence.
  intros cs.
  eapply (perform_all_isolated _ o st1 m1 S1 F1); heap_cbn; try done.
  - unfold live_at. split_and!; try done. by eapply lookup_weaken.
  - congruence.
  - congruence.
  - congruence.
Qed.

(** *** Unique keys *)

Lemma merge_NoDup data m : NoDup m.*1 → NoDup (merge data m).*1.
Proof.
  revert m. induction data as [|x r IH]; intros m Hm; simpl; [done|].
  by apply IH, entries_set_NoDup.
Qed.

(** After the merge a key maps to the last fetched item that carries it,
    and to what it mapped to before when no fetched item does. *)
Lemma merge_get k data m :
  entries_get k (merge data m) =
    match last (filter (λ y, id y = k) data) with
    | Some y => Some y
    | None => entries_get k m
    end.
Proof.
  revert m. induction data as [|x r IH]; intros m; [done|].
  change (merge (x :: r) m) with (merge r (entries_set (id x) x m)).
  rewrite IH, filter_cons. case_decide as E.
  - destruct (filter _ r) as [|y r'] eqn:Er.
    + simpl. subst k. apply entries_get_set_eq.
    + rewrite last_cons_cons.
      destruct (last (y :: r')) eqn:El; [done|]. by apply last_None in El.
  - destruct (last (filter _ r)); [done|].
    by apply entries_get_set_ne.
Qed.

Ltac unique_leaf :=
  let l := fresh "l" in let m := fresh "m" in let Hl := fresh "Hl" in
  intros l m; heap_cbn; rewrite ?lookup_insert_Some; intros Hl;
  repeat match goal with
    | Hx : _ ∨ _ |- _ => destruct Hx as [Hx|Hx]
    | Hx : _ ∧ _ |- _ => destruct Hx as [? Hx]
    end;
  subst;
  solve [eauto using NoDup_nil_2, entries_set_NoDup, entries_delete_NoDup].

Lemma dispatch_clone_unique o w :
  unique_keys w → wp (dispatch_clone o) (λ _ w', unique_keys w') w.
Proof.
  intros Hu. apply wp_dispatch_clone.
  intros r w' (_&_&_&_&_&_&_&Hnew&_) l m Hl.
  destruct (Hnew _ _ Hl) as [?| ->]; [eauto | constructor].
Qed.

Ltac unique_auto :=
  lazymatch goal with
  | |- wp (dispatch_clone _) _ _ => apply dispatch_clone_unique; unique_leaf
  | _ => unique_leaf
  end.

Lemma new_Paginatable_unique f w :
  unique_keys w → unique_keys (new_Paginatable f w).2.
Proof.
  intros Hu. change (wp (new_Paginatable f) (λ _ w', unique_keys w') w).
  wp_go. unique_leaf.
Qed.

Lemma paginate_enter_unique o p w :
  unique_keys w → unique_keys (paginate_enter o p w).2.
Proof.
  intros Hu. change (wp (paginate_enter o p) (λ _ w', unique_keys w') w).
  unfold paginate_enter. wp_go; unique_leaf.
Qed.

Lemma paginate_resume_unique o p r w :
  unique_keys w → unique_keys (paginate_resume o p r w).2.
Proof.
  intros Hu. change (wp (paginate_resume o p r) (λ _ w', unique_keys w') w).
  unfold paginate_resume. destruct r as [data n|reason]; [|by wp_go].
  wp_go; try unique_leaf.
  all: eapply wp_mono;
    [ apply (wp_for_of unique_keys); [unique_leaf|];
      intros x w' Hw'; wp_go; unique_leaf
    | intros [[]|e] w' Hw'; [by apply dispatch_clone_unique | done] ].
Qed.

Lemma perform_unique o c w :
  unique_keys w → unique_keys (perform o c w).2.
Proof.
  intros Hu. destruct c; unfold perform.
  - unfold paginate, bind.
    destruct (paginate_enter o page w) as [[[r|]|e] w1] eqn:E;
      apply (paginate_enter_unique o page) in Hu; rewrite E in Hu; simpl in *;
      try done.
    by apply paginate_resume_unique.
  - change (wp (discard (reset o)) (λ _ w', unique_keys w') w).
    unfold reset. wp_go; unique_leaf.
  - change (wp (add o item) (λ _ w', unique_keys w') w).
    unfold add, has. wp_go; unique_auto.
  - change (wp (remove o itemId) (λ _ w', unique_keys w') w).
    unfold remove. wp_go; unique_auto.
  - change (wp (update o item) (λ _ w', unique_keys w') w).
    unfold update, has. wp_go; unique_auto.
  - change (wp (discard (setDispatch o d)) (λ _ w', unique_keys w') w).
    unfold setDispatch. wp_go; unique_leaf.
  - change (wp (discard (items o)) (λ _ w', unique_keys w') w).
    unfold items. wp_go; unique_leaf.
  - change (wp (discard (has o itemId)) (λ _ w', unique_keys w') w).
    unfold has. wp_go; unique_leaf.
  - change (wp (discard (get o itemId)) (λ _ w', unique_keys w') w).
    unfold get. wp_go; unique_leaf.
Qed.

Lemma reachable_unique w : reachable w → unique_keys w.
Proof.
  induction 1.
  - by intros l m ?.
  - by apply new_Paginatable_unique.
  - by apply perform_unique.
  - by apply paginate_enter_unique.
  - by apply paginate_resume_unique.
Qed.

(** *** Invariants of the item maps *)

(** A property of entry lists that holds of the empty list and survives
    writing an item under its identity and deleting a key holds of every
    item map in every reachable world: those are the only writes the
    class performs. *)
Section map_invariant.
Variable P : list (Z * T) → Prop.
Hypothesis P_nil : P [].
Hypothesis P_set : ∀ x m, P m → P (entries_set (id x) x m).
Hypothesis P_delete : ∀ k m, P m → P (entries_delete k m).

Ltac every_leaf :=
  let l := fresh "l" in let m := fresh "m" in let Hl := fresh "Hl" in
  intros l m; heap_cbn; rewrite ?lookup_insert_Some; intros Hl;
  repeat match goal with
    | Hx : _ ∨ _ |- _ => destruct Hx as [Hx|Hx]
    | Hx : _ ∧ _ |- _ => destruct Hx as [? Hx]
    end;
  subst;
  solve [eauto].

Lemma dispatch_clone_every o w :
  every_map P w → wp (dispatch_clone o) (λ _ w', every_map P w') w.
Proof.
  intros Hu. apply wp_dispatch_clone.
  intros r w' (_&_&_&_&_&_&_&Hnew&_) l m Hl.
  destruct (Hnew _ _ Hl) as [?| ->]; eauto.
Qed.

Ltac every_auto :=
  lazymatch goal with
  | |- wp (dispatch_clone _) _ _ => apply dispatch_clone_every; every_leaf
  | _ => every_leaf
  end.

Lemma new_Paginatable_every f w :
  every_map P w → every_map P (new_Paginatable f w).2.
Proof.
  intros Hu. change (wp (new_Paginatable f) (λ _ w', every_map P w') w).
  wp_go. every_leaf.
Qed.

Lemma paginate_enter_every o p w :
  every_map P w → every_map P (paginate_enter o p w).2.
Proof.
  intros Hu. change (wp (paginate_enter o p) (λ _ w', every_map P w') w).
  unfold paginate_enter. wp_go; every_leaf.
Qed.

Lemma paginate_resume_every o p r w :
  every_map P w → every_map P (paginate_resume o p r w).2.
Proof.
  intros Hu. change (wp (paginate_resume o p r) (λ _ w', every_map P w') w).
  unfold paginate_resume. destruct r as [data n|reason]; [|by wp_go].
  wp_go; try every_leaf.
  all: eapply wp_mono;
    [ apply (wp_for_of (every_map P)); [every_leaf|];
      intros x w' Hw'; wp_go; every_leaf
    | intros [[]|e] w' Hw'; [by apply dispatch_clone_every | done] ].
Qed.

Lemma perform_every o c w :
  every_map P w → every_map P (perform o c w).2.
Proof.
  intros Hu. destruct c; unfold perform.
  - unfold paginate, bind.
    destruct (paginate_enter o page w) as [[[r|]|e] w1] eqn:E;
      apply (paginate_enter_every o page) in Hu; rewrite E in Hu; simpl in *;
      try done.
    by apply paginate_resume_every.
  - change (wp (discard (reset o)) (λ _ w', every_map P w') w).
    unfold reset. wp_go; every_leaf.
  - change (wp (add o item) (λ _ w', every_map P w') w).
    unfold add, has. wp_go; every_auto.
  - change (wp (remove o itemId) (λ _ w', every_map P w') w).
    unfold remove. wp_go; every_auto.
  - change (wp (update o item) (λ _ w', every_map P w') w).
    unfold update, has. wp_go; every_auto.
  - change (wp (discard (setDispatch o d)) (λ _ w', every_map P w') w).
    unfold setDispatch. wp_go; every_leaf.
  - change (wp (discard (items o)) (λ _ w', every_map P w') w).
    unfold items. wp_go; every_leaf.
  - change (wp (discard (has o itemId)) (λ _ w', every_map P w') w).
    unfold has. wp_go; every_leaf.
  - change (wp (discard (get o itemId)) (λ _ w', every_map P w') w).
    unfold get. wp_go; every_leaf.
Qed.

Lemma reachable_every w : reachable w → every_map P w.
Proof.
  induction 1.
  - by intros l m ?.
  - by apply new_Paginatable_every.
  - by apply perform_every.
  - by apply paginate_enter_every.
  - by apply paginate_resume_every.
Qed.

End map_invariant.

Lemma keyed_by_id_set x m : keyed_by_id m → keyed_by_id (entries_set (id x) x m).
Proof.
  unfold keyed_by_id. induction m as [|[k' v'] r IH]; simpl.
  - intros _. by constructor.
  - intros [Hk Hr]%Forall_cons. case_decide; constructor; auto.
Qed.

Lemma keyed_by_id_delete k m : keyed_by_id m → keyed_by_id (entries_delete k m).
Proof.
  unfold keyed_by_id. induction m as [|[k' v'] r IH]; simpl; [done|].
  intros [Hk Hr]%Forall_cons. case_decide; [done|]. constructor; auto.
Qed.

Lemma reachable_keyed w : reachable w → every_map keyed_by_id w.
Proof.
  apply reachable_every.
  - constructor.
  - apply keyed_by_id_set.
  - apply keyed_by_id_delete.
Qed.

(** With every item under its own identity, the keys are the identities
    of the values. *)
Lemma keyed_by_id_keys m : keyed_by_id m → m.*1 = id <$> entries_values m.
Proof.
  unfold keyed_by_id, entries_values.
  induction m as [|[k v] r IH]; simpl; [done|].
  intros [Hk Hr]%Forall_cons. simpl in Hk. f_equal; auto.
Qed.

(** C7. In every reachable world each item map stores every item under
    the item's own identity and holds no key twice, so that no two of its
    items have the same identity. Writing an item whose identity is
    present replaces the value under it and leaves the keys as they are:
    after [update] the map is the old one with the entry of the key
    overwritten, and after a successful [paginate] it is the old one with
    every fetched item written in order, so that each key carried by a
    fetched item maps to the last such item. *)
Theorem item_map_keys_unique w :
  reachable w →
  unique_keys w ∧
  every_map keyed_by_id w ∧
  (∀ l m, maps w !! l = Some m → NoDup (id <$> entries_values m)) ∧
  (∀ o st m S F x,
     live_at w o st m S F → entries_has (id x) m = true →
     maps (update o x w).2 !! _items st = Some (entries_set (id x) x m) ∧
     (entries_set (id x) x m).*1 = m.*1 ∧
     entries_get (id x) (entries_set (id x) x m) = Some x ∧
     NoDup (id <$> entries_values (entries_set (id x) x m))) ∧
  (∀ o st m S F p data n,
     live_at w o st m S F → p ∉ S → onPaginate st p = Resolved data n →
     maps (paginate o p w).2 !! _items st = Some (merge (default [] data) m) ∧
     NoDup (merge (default [] data) m).*1 ∧
     NoDup (id <$> entries_values (merge (default [] data) m)) ∧
     ∀ k, entries_get k (merge (default [] data) m) =
            match last (filter (λ y, id y = k) (default [] data)) with
            | Some y => Some y
            | None => entries_get k m
            end).
Proof.
  intros Hr. assert (Hu := reachable_unique w Hr).
  assert (Hk := reachable_keyed w Hr).
  assert (∀ w', reachable w' →
            ∀ l m, maps w' !! l = Some m → NoDup (id <$> entries_values m)) as Hid.
  { intros w' Hr' l m Hl. rewrite <-keyed_by_id_keys.
    - by eapply (reachable_unique w' Hr').
    - by eapply (reachable_keyed w' Hr'). }
  split_and!.
  - done.
  - done.
  - by apply Hid.
  - intros o st m S F x (Ho & Hm & Hs & Hf) Hx.
    assert (maps (update o x w).2 !! _items st
              = Some (entries_set (id x) x m)) as Hm'.
    { rewrite (update_present w o st m x) by done.
      eapply (dispatch_clone_keeps_live _ o (with_itemsCache None st) _ S F).
      live_tac. }
    split_and!.
    + done.
    + by apply entries_set_keys_present.
    + apply entries_get_set_eq.
    + eapply (Hid (perform o (CallUpdate x) w).2); [by constructor|exact Hm'].
  - intros o st m S F p data n Hl Hp Hres.
    assert (maps (paginate o p w).2 !! _items st
              = Some (merge (default [] data) m)) as Hm'.
    { by destruct (paginate_resolved_live w o st m S F p data n) as
        ((_ & ? & _) & _). }
    split_and!.
    + done.
    + destruct Hl as (_ & Hm & _). apply merge_NoDup. eauto.
    + eapply (Hid (perform o (CallPaginate p) w).2); [by constructor|exact Hm'].
    + intros k. apply merge_get.
Qed.

(** ** Further properties of the class *)

(** *** More on the ordered [Map] *)

Lemma entries_has_get_None k m : entries_has k m = false ↔ entries_get k m = None.
Proof.
  induction m as [|[k' v'] r IH]; simpl; [done|].
  case_decide; [split; discriminate | done].
Qed.

Lemma entries_set_absent k (v : T) m :
  entries_has k m = false → entries_set k v m = m ++ [(k, v)].
Proof.
  induction m as [|[k' v'] r IH]; simpl; [done|].
  case_decide; [done | intros ?; f_equal; auto].
Qed.

Lemma entries_delete_app_absent k (v : T) m :
  entries_has k m = false → entries_delete k (m ++ [(k, v)]) = m.
Proof.
  induction m as [|[k' v'] r IH]; simpl.
  - by rewrite decide_True.
  - case_decide; [done | intros ?; f_equal; auto].
Qed.

Lemma entries_delete_values k m i :
  entries_index k m = Some i →
  entries_values (entries_delete k m) = delete i (entries_values m).
Proof.
  unfold entries_values. revert i.
  induction m as [|[k' v'] r IH]; simpl; [done|]. intros i.
  case_decide; simpl.
  - by intros [= <-].
  - destruct (entries_index k r) as [j|]; simpl; [|done].
    intros [= <-]. simpl. f_equal. auto.
Qed.

Lemma entries_has_delete k m :
  NoDup m.*1 → entries_has k (entries_delete k m) = false.
Proof.
  induction m as [|[k' v'] r IH]; simpl; [done|].
  rewrite NoDup_cons. intros [Hk Hr]. case_decide; simpl.
  - subst k'. apply not_true_is_false. by intros ?%entries_has_elem.
  - rewrite decide_False by done. auto.
Qed.

Lemma entries_get_delete_ne k k' m :
  k ≠ k' → entries_get k' (entries_delete k m) = entries_get k' m.
Proof.
  intros Hne. induction m as [|[k0 v0] r IH]; simpl; [done|].
  case_decide; simpl.
  - subst k0. by rewrite decide_False.
  - case_decide; auto.
Qed.

(** *** [get] and [has] *)

Lemma get_present w o st m k v :
  objs w !! o = Some st → maps w !! _items st = Some m →
  entries_get k m = Some v →
  get o k w = (Normal (Some v), w).
Proof.
  intros Ho Hm Hk. pattern (get o k w). apply wp_outcome.
  unfold get. wp_step. wp_step. wp_step. wp_step. rewrite Hk. by wp_go.
Qed.

Lemma get_absent w o st m k :
  objs w !! o = Some st → maps w !! _items st = Some m →
  entries_get k m = None →
  get o k w =
    (Normal None,
     set_console
       (console w ++ [Warn messages.NOT_FOUND messages.FAILED_TO_GET k]) w).
Proof.
  intros Ho Hm Hk. pattern (get o k w). apply wp_outcome.
  unfold get. wp_step. wp_step. wp_step. wp_step. rewrite Hk. by wp_go.
Qed.

(** X1. [get] returns the item stored under the identity and changes
    nothing; for an identity that is not stored it returns [undefined],
    changes nothing in the heap, notifies nobody, and prints one warning
    that names the identity. *)
Theorem get_returns_item_or_warns w o st m S F k :
  live_at w o st m S F →
  (∀ v, entries_get k m = Some v → get o k w = (Normal (Some v), w)) ∧
  (entries_get k m = None →
   get o k w =
     (Normal None,
      set_console
        (console w ++ [Warn messages.NOT_FOUND messages.FAILED_TO_GET k]) w)).
Proof.
  intros (Ho & Hm & _). split.
  - intros v Hv. by eapply get_present.
  - intros Hk. by eapply get_absent.
Qed.

Lemma has_outcome w o k :
  has o k w =
    match objs w !! o with
    | Some st =>
        match maps w !! _items st with
        | Some m => (Normal (entries_has k m), w)
        | None => (Thrown Dangling, w)
        end
    | None => (Thrown Dangling, w)
    end.
Proof.
  pattern (has o k w). apply wp_outcome. unfold has.
  wp_step. wp_step.
  destruct (objs w !! o) as [st|]; [|done]. wp_step.
  by destruct (maps w !! _items st).
Qed.

Lemma get_outcome w o k :
  (get o k w).1 =
    match objs w !! o with
    | Some st =>
        match maps w !! _items st with
        | Some m => Normal (entries_get k m)
        | None => Thrown Dangling
        end
    | None => Thrown Dangling
    end.
Proof.
  pattern (get o k w). apply wp_outcome. unfold get.
  wp_step. wp_step. wp_step.
  destruct (objs w !! o) as [st|]; [|done]. wp_step.
  destruct (maps w !! _items st) as [m|]; [|done].
  destruct (entries_get k m); by wp_go.
Qed.

(** X2. [has] changes nothing, and it answers [true] exactly for the
    identities for which [get] returns an item. *)
Theorem has_agrees_with_get w o k :
  (has o k w).2 = w ∧
  ((has o k w).1 = Normal true ↔ ∃ v, (get o k w).1 = Normal (Some v)).
Proof.
  rewrite has_outcome, get_outcome.
  destruct (objs w !! o) as [st|]; simpl; [|by split; [|split; [|intros [? ?]]]].
  destruct (maps w !! _items st) as [m|]; simpl;
    [|by split; [|split; [|intros [? ?]]]].
  split; [done|]. split.
  - intros [= Hh]. apply entries_has_get in Hh as [v Hv]. exists v. by rewrite Hv.
  - intros [v [= Hv]]. f_equal. apply entries_has_get. eauto.
Qed.

(** *** Construction *)

(** X3. [new Paginatable(f)] returns a store at a location that was not in
    use, with [f] as its fetch function, no dispatch function, no cached
    array, [total] 0 and an empty item map, seen set and loading map,
    none of which existed before (so it shares nothing with any other
    store). Everything that existed before is left as it was. *)
Theorem constructor_makes_isolated_empty_store f w :
  ∃ c st0,
    (new_Paginatable f w).1 = Normal c ∧ objs w !! c = None ∧
    live_at (new_Paginatable f w).2 c st0 [] ∅ ∅ ∧
    total st0 = 0 ∧ _itemsCache st0 = None ∧ dispatch st0 = None ∧
    onPaginate st0 = f ∧
    maps w !! _items st0 = None ∧ sets w !! seen st0 = None ∧
    flags w !! loading st0 = None ∧
    grows w (new_Paginatable f w).2.
Proof.
  pattern (new_Paginatable f w). apply wp_outcome. wp_go.
  do 2 eexists. split; [done|]. split; [done|]. split; [live_tac|].
  heap_cbn. split_and!; try done. grows_tac.
Qed.

(** *** Notifying mutations, in full *)

Lemma dispatch_clone_effect w o st m S F :
  live_at w o st m S F →
  live_at (dispatch_clone o w).2 o st m S F ∧
  fetches (dispatch_clone o w).2 = fetches w ∧
  console (dispatch_clone o w).2 = console w ∧
  arrays w ⊆ arrays (dispatch_clone o w).2 ∧
  match dispatch st with
  | Some d =>
      (dispatch_clone o w).1 = Normal () ∧
      ∃ snap, objs w !! snap = None ∧
              notified (dispatch_clone o w).2 = notified w ++ [(d, snap)]
  | None =>
      (dispatch_clone o w).1 = Thrown TypeError_not_a_function ∧
      notified (dispatch_clone o w).2 = notified w
  end.
Proof.
  intros Hl. split; [by apply dispatch_clone_keeps_live|].
  destruct Hl as (Ho & Hm & Hs & Hf).
  destruct (dispatch_clone_live w o) as (_&?&_&_&_&?&?&_&_&Hl).
  split_and!; [done..|].
  destruct (Hl _ _ _ Ho Hs Hf) as (c & s' & l' & ? & _ & _ & _ & _ & _ & Hd).
  destruct (dispatch st); destruct Hd; eauto.
Qed.

(** The next read of [.items] on a store without a cached array builds a
    new array from the item map. *)
Lemma items_rebuilt w0 w o st m S F :
  live_at w o st m S F → _itemsCache st = None → arrays w0 ⊆ arrays w →
  ∃ a, (items o w).1 = Normal a ∧ arrays w0 !! a = None ∧
       arrays (items o w).2 !! a = Some (entries_values m).
Proof.
  intros (Ho & Hm & _) Hc Hsub.
  destruct (items_uncached w o st m Ho Hc Hm) as (a & Ha & ->).
  exists a. heap_simpl. split_and!; [done | | done].
  by eapply lookup_weaken_None.
Qed.

Lemma add_absent_effect w o st m S F x :
  live_at w o st m S F → entries_has (id x) m = false →
  live_at (add o x w).2 o (with_itemsCache None st) (m ++ [(id x, x)]) S F ∧
  fetches (add o x w).2 = fetches w ∧ console (add o x w).2 = console w ∧
  arrays w ⊆ arrays (add o x w).2 ∧
  match dispatch st with
  | Some d =>
      (add o x w).1 = Normal () ∧
      ∃ snap, objs w !! snap = None ∧
              notified (add o x w).2 = notified w ++ [(d, snap)]
  | None =>
      (add o x w).1 = Thrown TypeError_not_a_function ∧
      notified (add o x w).2 = notified w
  end.
Proof.
  intros (Ho & Hm & Hs & Hf) Hx.
  rewrite (add_absent w o st m x) by done.
  rewrite (entries_set_absent _ _ _ Hx).
  set (w0 := set_maps _ _).
  assert (live_at w0 o (with_itemsCache None st) (m ++ [(id x, x)]) S F) as Hl0
    by (unfold w0; live_tac).
  destruct (dispatch_clone_effect _ _ _ _ _ _ Hl0) as (? & ? & ? & ? & Hd).
  split_and!; try done.
  heap_cbn. destruct (dispatch st); [|done].
  destruct Hd as (? & snap & Hsnap & ?). split; [done|]. exists snap.
  split; [|done]. unfold w0 in Hsnap. heap_cbn.
  by apply lookup_insert_None in Hsnap as [? _].
Qed.

Lemma remove_present_effect w o st m S F k :
  live_at w o st m S F → entries_has k m = true →
  live_at (remove o k w).2 o (with_itemsCache None st) (entries_delete k m) S F ∧
  fetches (remove o k w).2 = fetches w ∧
  console (remove o k w).2 = console w ∧
  arrays w ⊆ arrays (remove o k w).2 ∧
  match dispatch st with
  | Some d =>
      (remove o k w).1 = Normal () ∧
      ∃ snap, objs w !! snap = None ∧
              notified (remove o k w).2 = notified w ++ [(d, snap)]
  | None =>
      (remove o k w).1 = Thrown TypeError_not_a_function ∧
      notified (remove o k w).2 = notified w
  end.
Proof.
  intros (Ho & Hm & Hs & Hf) Hk.
  rewrite (remove_present w o st m k) by done.
  set (w0 := set_objs _ _).
  assert (live_at w0 o (with_itemsCache None st) (entries_delete k m) S F)
    as Hl0 by (unfold w0; live_tac).
  destruct (dispatch_clone_effect _ _ _ _ _ _ Hl0) as (? & ? & ? & ? & Hd).
  split_and!; try done.
  heap_cbn. destruct (dispatch st); [|done].
  destruct Hd as (? & snap & Hsnap & ?). split; [done|]. exists snap.
  split; [|done]. unfold w0 in Hsnap. heap_cbn.
  by apply lookup_insert_None in Hsnap as [? _].
Qed.

Lemma update_present_effect w o st m S F x :
  live_at w o st m S F → entries_has (id x) m = true →
  live_at (update o x w).2 o (with_itemsCache None st)
    (entries_set (id x) x m) S F ∧
  fetches (update o x w).2 = fetches w ∧
  console (update o x w).2 = console w ∧
  arrays w ⊆ arrays (update o x w).2 ∧
  match dispatch st with
  | Some d =>
      (update o x w).1 = Normal () ∧
      ∃ snap, objs w !! snap = None ∧
              notified (update o x w).2 = notified w ++ [(d, snap)]
  | None =>
      (update o x w).1 = Thrown TypeError_not_a_function ∧
      notified (update o x w).2 = notified w
  end.
Proof.
  intros (Ho & Hm & Hs & Hf) Hx.
  rewrite (update_present w o st m x) by done.
  set (w0 := set_objs _ _).
  assert (live_at w0 o (with_itemsCache None st) (entries_set (id x) x m) S F)
    as Hl0 by (unfold w0; live_tac).
  destruct (dispatch_clone_effect _ _ _ _ _ _ Hl0) as (? & ? & ? & ? & Hd).
  split_and!; try done.
  heap_cbn. destruct (dispatch st); [|done].
  destruct Hd as (? & snap & Hsnap & ?). split; [done|]. exists snap.
  split; [|done]. unfold w0 in Hsnap. heap_cbn.
  by apply lookup_insert_None in Hsnap as [? _].
Qed.

Lemma paginate_resolved_effect w o st m S F p data n :
  live_at w o st m S F → p ∉ S → onPaginate st p = Resolved data n →
  live_at (paginate o p w).2 o (with_total n st)
    (merge (default [] data) m) ({[p]} ∪ S) (<[p := false]> F) ∧
  fetches (paginate o p w).2 = fetches w ++ [p] ∧
  console (paginate o p w).2 = console w ∧
  arrays w ⊆ arrays (paginate o p w).2 ∧
  match dispatch st with
  | Some d =>
      (paginate o p w).1 = Normal () ∧
      ∃ snap, objs w !! snap = None ∧
              notified (paginate o p w).2 = notified w ++ [(d, snap)]
  | None =>
      (paginate o p w).1 = Thrown TypeError_not_a_function ∧
      notified (paginate o p w).2 = notified w
  end.
Proof.
  intros (Ho & Hm & Hs & Hf) Hp Hr.
  rewrite (paginate_resolved w o st m S F p data n) by done.
  set (w0 := set_maps _ _).
  assert (live_at w0 o (with_total n st) (merge (default [] data) m)
            ({[p]} ∪ S) (<[p := false]> F)) as Hl0 by (unfold w0; live_tac).
  destruct (dispatch_clone_effect _ _ _ _ _ _ Hl0) as (? & ? & ? & ? & Hd).
  split_and!; try done.
  heap_cbn. destruct (dispatch st); [|done].
  destruct Hd as (? & snap & Hsnap & ?). split; [done|]. exists snap.
  split; [|done]. unfold w0 in Hsnap. heap_cbn.
  by apply lookup_insert_None in Hsnap as [? _].
Qed.

(** X4. [add] of an item whose identity is not stored puts it at the end
    of the iteration order. With a dispatch function registered the call
    returns normally and dispatches exactly one snapshot; it fetches
    nothing and prints nothing; [total], the seen set and the loading map
    are untouched; [get] of the identity then returns the item, and the
    next read of [.items] returns a new array holding the former values
    followed by the item. *)
Theorem add_appends_at_end w o st m S F x d :
  live_at w o st m S F → dispatch st = Some d →
  entries_has (id x) m = false →
  (add o x w).1 = Normal () ∧
  live_at (add o x w).2 o (with_itemsCache None st) (m ++ [(id x, x)]) S F ∧
  (∃ snap, notified (add o x w).2 = notified w ++ [(d, snap)]) ∧
  fetches (add o x w).2 = fetches w ∧ console (add o x w).2 = console w ∧
  (get o (id x) (add o x w).2).1 = Normal (Some x) ∧
  ∃ a, (items o (add o x w).2).1 = Normal a ∧ arrays w !! a = None ∧
       arrays (items o (add o x w).2).2 !! a = Some (entries_values m ++ [x]).
Proof.
  intros Hl Hd Hx.
  destruct (add_absent_effect w o st m S F x Hl Hx) as (Hl1 & ? & ? & Harr & Hn).
  rewrite Hd in Hn. destruct Hn as (? & snap & _ & ?).
  split_and!; try done; [by exists snap | |].
  - destruct Hl1 as (Ho1 & Hm1 & _).
    rewrite (get_live _ o _ _ (id x) Ho1 Hm1).
    rewrite <-(entries_set_absent _ _ _ Hx). by rewrite entries_get_set_eq.
  - destruct (items_rebuilt w _ o _ _ _ _ Hl1 eq_refl Harr) as (a & ? & ? & Ha).
    exists a. split_and!; [done..|].
    rewrite Ha. unfold entries_values. by rewrite fmap_app.
Qed.

(** X5. The notifying mutations change the store before they call the
    dispatch function, and nothing is rolled back when that call fails.
    On a store without a dispatch function each of them throws the
    [TypeError] and notifies nobody, yet afterwards the added item is
    stored, the removed one is gone, the updated one is overwritten, and
    the fetched page is merged with [total] set, the page seen and its
    loading flag cleared. *)
Theorem failed_dispatch_keeps_the_mutation w o st m S F :
  live_at w o st m S F → dispatch st = None →
  (∀ x, entries_has (id x) m = false →
     (add o x w).1 = Thrown TypeError_not_a_function ∧
     notified (add o x w).2 = notified w ∧
     live_at (add o x w).2 o (with_itemsCache None st)
       (m ++ [(id x, x)]) S F) ∧
  (∀ k, entries_has k m = true →
     (remove o k w).1 = Thrown TypeError_not_a_function ∧
     notified (remove o k w).2 = notified w ∧
     live_at (remove o k w).2 o (with_itemsCache None st)
       (entries_delete k m) S F) ∧
  (∀ x, entries_has (id x) m = true →
     (update o x w).1 = Thrown TypeError_not_a_function ∧
     notified (update o x w).2 = notified w ∧
     live_at (update o x w).2 o (with_itemsCache None st)
       (entries_set (id x) x m) S F) ∧
  (∀ p data n, p ∉ S → onPaginate st p = Resolved data n →
     (paginate o p w).1 = Thrown TypeError_not_a_function ∧
     notified (paginate o p w).2 = notified w ∧
     live_at (paginate o p w).2 o (with_total n st)
       (merge (default [] data) m) ({[p]} ∪ S) (<[p := false]> F)).
Proof.
  intros Hl Hd. split_and!.
  - intros x Hx.
    destruct (add_absent_effect w o st m S F x Hl Hx) as (? & _ & _ & _ & Hn).
    rewrite Hd in Hn. by destruct Hn.
  - intros k Hk.
    destruct (remove_present_effect w o st m S F k Hl Hk) as (? & _ & _ & _ & Hn).
    rewrite Hd in Hn. by destruct Hn.
  - intros x Hx.
    destruct (update_present_effect w o st m S F x Hl Hx) as (? & _ & _ & _ & Hn).
    rewrite Hd in Hn. by destruct Hn.
  - intros p data n Hp Hr.
    destruct (paginate_resolved_effect w o st m S F p data n Hl Hp Hr)
      as (? & _ & _ & _ & Hn).
    rewrite Hd in Hn. by destruct Hn.
Qed.

(** X6. [remove] of a stored identity deletes that entry and keeps the
    order of the others. With a dispatch function registered the call
    returns normally, dispatches exactly one snapshot and prints nothing;
    afterwards [has] of the identity is [false], [get] of every other
    identity answers as before, and the next read of [.items] returns a
    new array: the former values without the one at the position the
    identity had. *)
Theorem remove_deletes_in_place w o st m S F k i d :
  live_at w o st m S F → dispatch st = Some d → NoDup m.*1 →
  entries_index k m = Some i →
  (remove o k w).1 = Normal () ∧
  live_at (remove o k w).2 o (with_itemsCache None st) (entries_delete k m) S F ∧
  (∃ snap, notified (remove o k w).2 = notified w ++ [(d, snap)]) ∧
  fetches (remove o k w).2 = fetches w ∧
  console (remove o k w).2 = console w ∧
  (has o k (remove o k w).2).1 = Normal false ∧
  (∀ k', k' ≠ k →
     (get o k' (remove o k w).2).1 = Normal (entries_get k' m)) ∧
  ∃ a, (items o (remove o k w).2).1 = Normal a ∧ arrays w !! a = None ∧
       arrays (items o (remove o k w).2).2 !! a
         = Some (delete i (entries_values m)).
Proof.
  intros Hl Hd Hnd Hi.
  assert (entries_has k m = true) as Hk by (apply entries_has_index; eauto).
  destruct (remove_present_effect w o st m S F k Hl Hk)
    as (Hl1 & ? & ? & Harr & Hn).
  rewrite Hd in Hn. destruct Hn as (? & snap & _ & ?).
  assert (Hl1' := Hl1). destruct Hl1' as (Ho1 & Hm1 & _).
  split_and!; try done; [by exists snap | | |].
  - rewrite (has_live _ o _ _ k Ho1 Hm1). simpl. f_equal.
    by apply entries_has_delete.
  - intros k' Hne. rewrite (get_live _ o _ _ k' Ho1 Hm1). f_equal.
    by apply entries_get_delete_ne.
  - destruct (items_rebuilt w _ o _ _ _ _ Hl1 eq_refl Harr) as (a & ? & ? & Ha).
    exists a. split_and!; [done..|].
    rewrite Ha. f_equal. by apply entries_delete_values.
Qed.

(** X7. [add] of an item whose identity is not stored followed by
    [remove] of that identity leaves the item map exactly as it was
    before the two calls, entries and order; [total], the seen set and the
    loading map are untouched, nothing is fetched and nothing is printed.
    Only the cached array is gone. *)
Theorem add_then_remove_restores_items w o st m S F x :
  live_at w o st m S F → entries_has (id x) m = false →
  live_at (remove o (id x) (add o x w).2).2 o (with_itemsCache None st) m S F ∧
  fetches (remove o (id x) (add o x w).2).2 = fetches w ∧
  console (remove o (id x) (add o x w).2).2 = console w.
Proof.
  intros Hl Hx.
  destruct (add_absent_effect w o st m S F x Hl Hx) as (Hl1 & Hf1 & Hc1 & _).
  assert (entries_has (id x) (m ++ [(id x, x)]) = true) as Hx1.
  { rewrite <-(entries_set_absent _ x _ Hx). apply entries_has_get.
    rewrite entries_get_set_eq. eauto. }
  destruct (remove_present_effect _ o _ _ S F (id x) Hl1 Hx1)
    as (Hl2 & Hf2 & Hc2 & _).
  rewrite entries_delete_app_absent in Hl2 by done.
  split_and!; [done | congruence | congruence].
Qed.

(** X8. [setDispatch] returns the store it was called on and changes
    nothing but the [dispatch] field of that store. Only the function
    registered last is called: after two registrations a notifying [add]
    dispatches one snapshot, to the second function. *)
Theorem setDispatch_last_registration_wins w o st m S F d1 d2 x :
  live_at w o st m S F → entries_has (id x) m = false →
  setDispatch o d1 w =
    (Normal o, set_objs (<[o := with_dispatch (Some d1) st]> (objs w)) w) ∧
  ∃ snap,
    notified (add o x (setDispatch o d2 (setDispatch o d1 w).2).2).2
      = notified w ++ [(d2, snap)].
Proof.
  intros (Ho & Hm & Hs & Hf) Hx.
  assert (∀ w' st' d, objs w' !! o = Some st' →
            setDispatch o d w' =
              (Normal o, set_objs (<[o := with_dispatch (Some d) st']> (objs w')) w'))
    as Hset.
  { intros w' st' d Ho'. pattern (setDispatch o d w'). apply wp_outcome.
    unfold setDispatch. by wp_go. }
  split; [by apply Hset|].
  rewrite (Hset w st d1 Ho). simpl.
  erewrite Hset by (heap_simpl; reflexivity). simpl.
  set (w2 := set_objs _ _).
  assert (live_at w2 o (with_dispatch (Some d2) (with_dispatch (Some d1) st))
            m S F) as Hl2 by (unfold w2; live_tac).
  destruct (add_absent_effect w2 o _ m S F x Hl2 Hx) as (_ & _ & _ & _ & Hn).
  heap_cbn. destruct Hn as (_ & snap & _ & Hn). by exists snap.
Qed.

(** *** Effects by kind of call *)

Lemma call_effect_dispatch_clone st m S F c w o w1 r w' st1 m1 S1 F1 ps :
  live_at w1 o st1 m1 S1 F1 →
  fetches w1 = fetches w ++ ps → (length ps ≤ 1)%nat →
  (is_paginate c = false → ps = []) →
  (∀ q, q ∈ ps → (q ∉ S) ∧ (q ∈ S1)) →
  S ⊆ S1 →
  (is_paginate c = false → total st1 = total st ∧ S1 = S ∧ F1 = F) →
  (is_paginate c || is_edit c) = true →
  dispatch_clone_post w1 o r w' →
  call_effect st m S F c w o w'.
Proof.
  intros (Ho & Hm & Hs & Hf) Hfe Hlen Hps Hq Hsub Htot Hkind
    (?&?&?&?&?&Hfe'&_).
  exists st1, m1, S1, F1, ps. split_and!; try done.
  - unfold live_at. split_and!; by eapply lookup_weaken.
  - congruence.
  - auto.
  - intros E1 E2. rewrite E1, E2 in Hkind. done.
  - intros E1 E2. rewrite E1, E2 in Hkind. done.
Qed.

Ltac effect_leaf ps :=
  unfold call_effect; do 4 eexists; exists ps;
  split; [live_tac|];
  heap_cbn;
  split_and!;
  [ first [ reflexivity | by rewrite app_nil_r ]
  | simpl; lia
  | done
  | first [ by intros ? ?%elem_of_nil | idtac ]
  | intros; first [ done | set_solver ]
  | intros; split_and?; first [ done | set_solver ]
  | done
  | done ].

Ltac effect_clone ps :=
  apply wp_dispatch_clone;
  let r := fresh "r" in let w' := fresh "w'" in let Hpost := fresh "Hpost" in
  intros r w' Hpost;
  refine (call_effect_dispatch_clone _ _ _ _ _ _ _ _ r w' _ _ _ _ ps
            _ _ _ _ _ _ _ _ Hpost);
  [ live_tac | .. ];
  heap_cbn;
  [ first [ reflexivity | by rewrite app_nil_r ]
  | simpl; lia
  | done
  | first [ by intros ? ?%elem_of_nil | idtac ]
  | first [ done | set_solver ]
  | intros; split_and?; first [ done | set_solver ]
  | done ].

Lemma perform_effect w o st m S F c :
  live_at w o st m S F → call_effect st m S F c w o (perform o c w).2.
Proof.
  intros (Ho & Hm & Hs & Hf).
  change (wp (perform o c) (λ _ w', call_effect st m S F c w o w') w).
  destruct c; unfold perform, is_paginate, is_reset, is_edit.
  - unfold paginate, paginate_enter, paginate_resume. wp_go.
    + effect_leaf (@nil Z).
    + assert (page ∉ S) as Hp by (by apply bool_decide_eq_false in Heqb).
      destruct (onPaginate st page) as [data n|reason]; wp_go.
      * eapply merge_loop; heap_simpl; [done..|].
        effect_clone [page].
        intros q ->%list_elem_of_singleton. split; [done | set_solver].
      * effect_leaf [page].
        intros q ->%list_elem_of_singleton. split; [done | set_solver].
  - unfold reset. wp_go. effect_leaf (@nil Z).
  - unfold add, has. wp_go; [effect_leaf (@nil Z) | effect_clone (@nil Z)].
  - unfold remove. wp_go; [|effect_clone (@nil Z)].
    effect_leaf (@nil Z).
  - unfold update, has. wp_go; [effect_leaf (@nil Z) | effect_clone (@nil Z)].
  - unfold setDispatch. wp_go. effect_leaf (@nil Z).
  - unfold items. wp_go; effect_leaf (@nil Z).
  - unfold has. wp_go. effect_leaf (@nil Z).
  - unfold get. wp_go; effect_leaf (@nil Z).
Qed.

Lemma perform_all_effect w o st m S F cs :
  live_at w o st m S F →
  ∃ st' m' S' F' ps,
    live_at (perform_all o cs w) o st' m' S' F' ∧
    fetches (perform_all o cs w) = fetches w ++ ps ∧
    (Forall (λ c, is_paginate c = false) cs → ps = []) ∧
    (Forall (λ c, is_reset c = false) cs →
     S ⊆ S' ∧ NoDup ps ∧ ∀ q, q ∈ ps → (q ∉ S) ∧ (q ∈ S')) ∧
    (Forall (λ c, is_paginate c = false ∧ is_reset c = false) cs →
     total st' = total st ∧ S' = S ∧ F' = F) ∧
    (Forall (λ c, is_paginate c = false ∧ is_edit c = false) cs →
     notified (perform_all o cs w) = notified w) ∧
    (Forall (λ c, is_paginate c = false ∧ is_edit c = false ∧
                  is_reset c = false) cs → m' = m).
Proof.
  revert w st m S F. induction cs as [|c cs IH]; intros w st m S F Hl; simpl.
  - exists st, m, S, F, []. rewrite app_nil_r.
    split_and!; try done. intros _. split_and!; [done | constructor |].
    by intros q ?%elem_of_nil.
  - destruct (perform_effect w o st m S F c Hl) as
      (st1 & m1 & S1 & F1 & ps1 & Hl1 & Hf1 & Hlen & Hnp & Hq1 & Hsub1 &
       Hkeep1 & Hnot1 & Hm1).
    destruct (IH _ _ _ _ _ Hl1) as
      (st' & m' & S' & F' & ps2 & Hl' & Hf2 & Hnp2 & Hseq & Hkeep2 & Hnot2 & Hm2).
    exists st', m', S', F', (ps1 ++ ps2). split_and!.
    + done.
    + by rewrite Hf2, Hf1, app_assoc.
    + intros [Hc Hcs]%Forall_cons. by rewrite Hnp, Hnp2.
    + intros [Hc Hcs]%Forall_cons.
      destruct (Hseq Hcs) as (Hsub2 & Hnd2 & Hq2). specialize (Hsub1 Hc).
      split_and!.
      * by etrans.
      * apply NoDup_app. split_and!.
        -- destruct ps1 as [|? [|? ?]]; simpl in Hlen; [constructor | | lia].
           apply NoDup_singleton.
        -- intros q Hq Hq'. destruct (Hq1 q Hq). destruct (Hq2 q Hq'). done.
        -- done.
      * intros q [Hq|Hq]%elem_of_app.
        -- destruct (Hq1 q Hq) as [? Hin]. split; [done | by apply Hsub2].
        -- destruct (Hq2 q Hq) as [Hnin ?]. split; [|done].
           intros Hin. apply Hnin. by apply Hsub1.
    + intros [[Hc Hc'] Hcs]%Forall_cons.
      destruct (Hkeep1 Hc Hc') as (? & -> & ->).
      destruct (Hkeep2 Hcs) as (? & ? & ?). split_and!; congruence.
    + intros [[Hc Hc'] Hcs]%Forall_cons. rewrite Hnot2, Hnot1 by done. done.
    + intros [(Hc & Hc' & Hc'') Hcs]%Forall_cons.
      rewrite Hm2, Hm1 by done. done.
Qed.

Lemma perform_all_arrays w o st m S F cs :
  live_at w o st m S F → arrays w ⊆ arrays (perform_all o cs w).
Proof.
  revert w st m S F. induction cs as [|c cs IH]; intros w st m S F Hl; simpl;
    [done|].
  destruct (perform_frame w o st m S F c Hl) as
    ((st1 & m1 & S1 & F1 & Hl1 & _) & _ & _ & _ & Harr & _).
  etrans; [exact Harr|]. by eapply IH.
Qed.

(** *** [paginate], start to end *)

(** X9. A successful [paginate] of an unseen page on a store with a
    dispatch function. Up to the [await] it marks the page seen, sets its
    loading flag to [true], invokes the fetch function once and notifies
    nobody. Run to completion it returns normally, has cleared the loading
    flag to [false], set [total] to the fetched total, merged the fetched
    items and dispatched exactly one snapshot; it prints nothing. *)
Theorem paginate_success_lifecycle w o st m S F p data n d :
  live_at w o st m S F → dispatch st = Some d → p ∉ S →
  onPaginate st p = Resolved data n →
  (paginate_enter o p w).1 = Normal (Some (Resolved data n)) ∧
  live_at (paginate_enter o p w).2 o st m ({[p]} ∪ S) (<[p := true]> F) ∧
  fetches (paginate_enter o p w).2 = fetches w ++ [p] ∧
  notified (paginate_enter o p w).2 = notified w ∧
  (paginate o p w).1 = Normal () ∧
  live_at (paginate o p w).2 o (with_total n st)
    (merge (default [] data) m) ({[p]} ∪ S) (<[p := false]> F) ∧
  fetches (paginate o p w).2 = fetches w ++ [p] ∧
  console (paginate o p w).2 = console w ∧
  ∃ snap, notified (paginate o p w).2 = notified w ++ [(d, snap)].
Proof.
  intros Hl Hd Hp Hr.
  destruct (paginate_resolved_effect w o st m S F p data n Hl Hp Hr)
    as (? & ? & ? & _ & Hn).
  rewrite Hd in Hn. destruct Hn as (? & snap & _ & ?).
  rewrite (paginate_enter_unseen w o st m S F p) by done.
  destruct Hl as (Ho & Hm & Hs & Hf).
  split_and!; try done; [by rewrite Hr | live_tac | by exists snap].
Qed.

(** X10. A page that resolves with [null] or with an empty array is still
    a mutation: [total] is set, the page is seen with its loading flag
    [false], and one snapshot is dispatched, while the item map keeps its
    entries. *)
Theorem paginate_without_data_still_notifies w o st m S F p data n d :
  live_at w o st m S F → dispatch st = Some d → p ∉ S →
  onPaginate st p = Resolved data n → data = None ∨ data = Some [] →
  (paginate o p w).1 = Normal () ∧
  live_at (paginate o p w).2 o (with_total n st) m
    ({[p]} ∪ S) (<[p := false]> F) ∧
  ∃ snap, notified (paginate o p w).2 = notified w ++ [(d, snap)].
Proof.
  intros Hl Hd Hp Hr Hdata.
  destruct (paginate_resolved_effect w o st m S F p data n Hl Hp Hr)
    as (Hl1 & _ & _ & _ & Hn).
  rewrite Hd in Hn. destruct Hn as (? & snap & _ & ?).
  split_and!; [done | | by exists snap].
  by destruct Hdata as [-> | ->].
Qed.

Lemma paginate_unseen_fetches w o st m S F p :
  live_at w o st m S F → p ∉ S →
  fetches (paginate o p w).2 = fetches w ++ [p].
Proof.
  intros Hl Hp. destruct (onPaginate st p) as [data n|reason] eqn:Hr.
  - by destruct (paginate_resolved_live w o st m S F p data n) as (_ & ? & _).
  - by rewrite (paginate_rejected w o st m S F p reason).
Qed.

(** X11. After [reset] the store starts over: [has] answers [false] for
    every identity, the next read of [.items] returns a new, empty array,
    and [paginate] of any page, seen before or not, invokes the fetch
    function again. *)
Theorem reset_starts_over w o st m S F :
  live_at w o st m S F →
  (∀ k, (has o k (reset o w).2).1 = Normal false) ∧
  (∃ a, (items o (reset o w).2).1 = Normal a ∧ arrays w !! a = None ∧
        arrays (items o (reset o w).2).2 !! a = Some []) ∧
  (∀ p, fetches (paginate o p (reset o w).2).2 = fetches w ++ [p]).
Proof.
  intros Hl. rewrite (reset_live _ _ _ _ _ _ Hl).
  destruct Hl as (Ho & Hm & Hs & Hf). simpl.
  set (w1 := set_flags _ _).
  assert (live_at w1 o (with_total 0 (with_itemsCache None st)) [] ∅ ∅) as Hl1
    by (unfold w1; live_tac).
  split_and!.
  - intros k. destruct Hl1 as (Ho1 & Hm1 & _).
    by rewrite (has_live _ o _ _ k Ho1 Hm1).
  - by apply (items_rebuilt w w1 o _ _ _ _ Hl1).
  - intros p. by rewrite (paginate_unseen_fetches _ o _ _ _ _ p Hl1).
Qed.

(** *** What calls never do *)

(** X12. The store never changes an array once it exists: whatever
    [.items] has returned keeps its contents through every later sequence
    of calls (a mutation makes the next read return another array
    instead). *)
Theorem arrays_are_never_mutated w o st m S F a vs cs :
  live_at w o st m S F → arrays w !! a = Some vs →
  arrays (perform_all o cs w) !! a = Some vs.
Proof.
  intros Hl Ha. eapply lookup_weaken; [exact Ha|].
  by eapply perform_all_arrays.
Qed.

(** X13. In a sequence of calls that contains no [reset], every page seen
    at the start is still seen at the end, no page seen at the start is
    fetched, and no page is fetched twice. *)
Theorem no_page_is_fetched_twice w o st m S F cs :
  live_at w o st m S F → Forall (λ c, is_reset c = false) cs →
  ∃ st' m' S' F' ps,
    live_at (perform_all o cs w) o st' m' S' F' ∧
    fetches (perform_all o cs w) = fetches w ++ ps ∧
    NoDup ps ∧ S ⊆ S' ∧ ∀ q, q ∈ ps → (q ∉ S) ∧ (q ∈ S').
Proof.
  intros Hl Hcs.
  destruct (perform_all_effect w o st m S F cs Hl) as
    (st' & m' & S' & F' & ps & Hl' & Hf & _ & Hseq & _).
  destruct (Hseq Hcs) as (? & ? & ?).
  by exists st', m', S', F', ps.
Qed.

(** X14. Only [paginate] invokes the fetch function: a sequence of calls
    without [paginate] leaves the [fetches] trace as it was. *)
Theorem only_paginate_fetches w o st m S F cs :
  live_at w o st m S F → Forall (λ c, is_paginate c = false) cs →
  fetches (perform_all o cs w) = fetches w.
Proof.
  intros Hl Hcs.
  destruct (perform_all_effect w o st m S F cs Hl) as
    (st' & m' & S' & F' & ps & _ & Hf & Hnp & _).
  by rewrite Hf, (Hnp Hcs), app_nil_r.
Qed.

(** X15. Only [paginate], [add], [remove] and [update] call the dispatch
    function: a sequence of [reset], [setDispatch], [.items], [has] and
    [get] leaves the [notified] trace as it was. *)
Theorem reads_and_reset_never_notify w o st m S F cs :
  live_at w o st m S F →
  Forall (λ c, is_paginate c = false ∧ is_edit c = false) cs →
  notified (perform_all o cs w) = notified w.
Proof.
  intros Hl Hcs.
  destruct (perform_all_effect w o st m S F cs Hl) as
    (st' & m' & S' & F' & ps & _ & _ & _ & _ & _ & Hn & _).
  by apply Hn.
Qed.

(** X16. [add], [remove] and [update] do not adjust [total], and neither
    they nor [setDispatch], [.items], [has] and [get] touch the seen pages
    or the loading flags: after a sequence of calls without [paginate] and
    [reset] all three are as before. *)
Theorem edits_keep_total_and_pages w o st m S F cs :
  live_at w o st m S F →
  Forall (λ c, is_paginate c = false ∧ is_reset c = false) cs →
  ∃ st' m',
    live_at (perform_all o cs w) o st' m' S F ∧ total st' = total st.
Proof.
  intros Hl Hcs.
  destruct (perform_all_effect w o st m S F cs Hl) as
    (st' & m' & S' & F' & ps & Hl' & _ & _ & _ & Hk & _).
  destruct (Hk Hcs) as (? & -> & ->). by exists st', m'.
Qed.

(** *** Sharing between a store and its snapshots *)

Lemma dispatch_clone_snapshot w o st m S F d :
  live_at w o st m S F → dispatch st = Some d →
  ∃ snap cst,
    objs w !! snap = None ∧
    notified (dispatch_clone o w).2 = notified w ++ [(d, snap)] ∧
    live_at (dispatch_clone o w).2 snap cst m S F ∧
    _items cst = _items st ∧ dispatch cst = Some d ∧
    live_at (dispatch_clone o w).2 o st m S F.
Proof.
  intros Hl Hd. assert (Hl' := Hl). apply dispatch_clone_keeps_live in Hl'.
  destruct Hl as (Ho & Hm & Hs & Hf).
  destruct (dispatch_clone_live w o) as (Hmaps&_&_&_&_&_&_&_&_&Hlive).
  destruct (Hlive _ _ _ Ho Hs Hf) as
    (c & s' & l' & Hc & _ & _ & Hcobj & Hcs & Hcf & Hn).
  rewrite Hd in Hn. destruct Hn as [_ Hn].
  eexists c, _. split_and!; [done | done | | | | done].
  - unfold live_at. split_and!; [exact Hcobj | | done | done].
    heap_cbn. by eapply lookup_weaken.
  - done.
  - done.
Qed.

(** X17. A snapshot and the store it was cloned from keep sharing one item
    map. The snapshot dispatched by an [add] sees the added item; an item
    added later through the snapshot is seen through the store; and
    [reset] on the store empties the item map under the snapshot as
    well. *)
Theorem snapshot_and_store_share_the_item_map w o st m S F x d :
  live_at w o st m S F → dispatch st = Some d →
  entries_has (id x) m = false →
  ∃ snap,
    notified (add o x w).2 = notified w ++ [(d, snap)] ∧ snap ≠ o ∧
    (has snap (id x) (add o x w).2).1 = Normal true ∧
    (∀ y, entries_has (id y) (m ++ [(id x, x)]) = false →
          (has o (id y) (add snap y (add o x w).2).2).1 = Normal true) ∧
    (∀ k, (has snap k (reset o (add o x w).2).2).1 = Normal false).
Proof.
  intros (Ho & Hm & Hs & Hf) Hd Hx.
  rewrite (add_absent w o st m x) by done.
  rewrite (entries_set_absent _ _ _ Hx).
  set (w0 := set_maps _ _).
  assert (live_at w0 o (with_itemsCache None st) (m ++ [(id x, x)]) S F) as Hl0
    by (unfold w0; live_tac).
  destruct (dispatch_clone_snapshot w0 o _ _ _ _ d Hl0 Hd) as
    (snap & cst & Hfresh & Hn & Hls & Hit & Hdc & Hlo).
  set (w1 := (dispatch_clone o w0).2) in *.
  assert (snap ≠ o) as Hne.
  { intros ->. destruct Hl0 as (Ho0 & _). congruence. }
  assert (entries_has (id x) (m ++ [(id x, x)]) = true) as Hx1.
  { rewrite <-(entries_set_absent _ x _ Hx). apply entries_has_get.
    rewrite entries_get_set_eq. eauto. }
  exists snap. split_and!; [exact Hn | exact Hne | | |].
  - destruct Hls as (Hso & Hsm & _).
    rewrite (has_live _ snap _ _ _ Hso Hsm). simpl. by rewrite Hx1.
  - intros y Hy.
    destruct (add_absent_effect w1 snap cst _ S F y Hls Hy) as ((_ & Hm2 & _) & _).
    destruct (perform_frame w1 snap cst _ S F (CallAdd y) Hls) as
      (_ & Hothers & _).
    destruct Hlo as (Ho1 & _).
    assert (objs (add snap y w1).2 !! o = Some (with_itemsCache None st)) as Ho2
      by (apply Hothers; [congruence | done]).
    heap_cbn. rewrite Hit in Hm2.
    rewrite (has_live _ o _ _ (id y) Ho2 Hm2). simpl. f_equal.
    rewrite <-(entries_set_absent _ y _ Hy). apply entries_has_get.
    rewrite entries_get_set_eq. eauto.
  - intros k. rewrite (reset_live _ _ _ _ _ _ Hlo). simpl.
    destruct Hls as (Hso & _).
    erewrite (has_live _ snap cst [] k); [done | |].
    + heap_cbn. by rewrite lookup_insert_ne by congruence.
    + heap_cbn. rewrite Hit. by rewrite lookup_insert_eq.
Qed.

(** *** Overlapping [paginate] calls *)

(** X18. Two [paginate] calls for different unseen pages that are both
    suspended at their [await] each invoke the fetch function once. They
    complete in the order in which their promises resolve, not in the
    order in which they were issued: the items of the page that resolves
    first are merged first, and [total] ends as the total of the page that
    resolves last. While the first page is still pending and the second
    has completed, the first page's loading flag is [true] and the
    second's is [false]. *)
Theorem overlapping_pages_complete_in_resolution_order
    w o st m S F p q dp np dq nq :
  live_at w o st m S F → p ∉ S → q ∉ S → p ≠ q →
  onPaginate st p = Resolved dp np → onPaginate st q = Resolved dq nq →
  let w1 := (paginate_enter o p w).2 in
  let w2 := (paginate_enter o q w1).2 in
  let w3 := (paginate_resume o q (Resolved dq nq) w2).2 in
  let w4 := (paginate_resume o p (Resolved dp np) w3).2 in
  (paginate_enter o p w).1 = Normal (Some (Resolved dp np)) ∧
  (paginate_enter o q w1).1 = Normal (Some (Resolved dq nq)) ∧
  fetches w4 = fetches w ++ [p; q] ∧
  live_at w3 o (with_total nq st) (merge (default [] dq) m)
    ({[q]} ∪ ({[p]} ∪ S)) (<[q := false]> (<[p := true]> F)) ∧
  live_at w4 o (with_total np st)
    (merge (default [] dp) (merge (default [] dq) m))
    ({[q]} ∪ ({[p]} ∪ S))
    (<[p := false]> (<[q := false]> (<[p := true]> F))).
Proof.
  intros Hl Hp Hq Hpq Hrp Hrq w1 w2 w3 w4.
  assert (live_at w1 o st m ({[p]} ∪ S) (<[p := true]> F) ∧
          fetches w1 = fetches w ++ [p]) as (Hl1 & Hf1).
  { unfold w1. rewrite (paginate_enter_unseen w o st m S F p) by done.
    destruct Hl as (Ho & Hm & Hs & Hf). split; [live_tac | done]. }
  assert (q ∉ ({[p]} ∪ S : gset Z)) as Hq1.
  { intros [Heq%elem_of_singleton|?]%elem_of_union; congruence. }
  assert (live_at w2 o st m ({[q]} ∪ ({[p]} ∪ S))
            (<[q := true]> (<[p := true]> F)) ∧
          fetches w2 = fetches w ++ [p; q]) as (Hl2 & Hf2).
  { unfold w2. rewrite (paginate_enter_unseen w1 o st m _ _ q) by done.
    destruct Hl1 as (Ho & Hm & Hs & Hf). split; [live_tac|].
    heap_cbn. by rewrite Hf1, <-app_assoc. }
  assert (live_at w3 o (with_total nq st) (merge (default [] dq) m)
            ({[q]} ∪ ({[p]} ∪ S)) (<[q := false]> (<[p := true]> F)) ∧
          fetches w3 = fetches w ++ [p; q]) as (Hl3 & Hf3).
  { unfold w3. rewrite (paginate_resume_resolved w2 o st m _ _ q dq nq Hl2).
    destruct Hl2 as (Ho & Hm & Hs & Hf).
    edestruct (dispatch_clone_effect) as (Hl3 & Hf3 & _); [|split; [exact Hl3|]].
    - rewrite <-(insert_insert_eq (<[p := true]> F) q true false). live_tac.
    - by rewrite Hf3. }
  assert (live_at w4 o (with_total np st)
            (merge (default [] dp) (merge (default [] dq) m))
            ({[q]} ∪ ({[p]} ∪ S))
            (<[p := false]> (<[q := false]> (<[p := true]> F))) ∧
          fetches w4 = fetches w ++ [p; q]) as (Hl4 & Hf4).
  { unfold w4. rewrite (paginate_resume_resolved w3 o _ _ _ _ p dp np Hl3).
    destruct Hl3 as (Ho & Hm & Hs & Hf).
    edestruct (dispatch_clone_effect) as (Hl4 & Hf4 & _); [|split; [exact Hl4|]].
    - live_tac.
    - by rewrite Hf4. }
  split_and!; try done.
  - rewrite (paginate_enter_unseen w o st m S F p) by done. by rewrite Hrp.
  - unfold w1 in *. rewrite (paginate_enter_unseen _ o st m _ _ q Hl1) by done.
    by rewrite Hrq.
Qed.

End methods.

(** ** The sample stores, evaluated *)

Import Sample.

Lemma fresh_store_live : live_at fresh_store 1%positive fresh_state [] ∅ ∅.
Proof. unfold live_at. by vm_compute. Qed.

Lemma bound_store_live : live_at bound_store 1%positive bound_state [] ∅ ∅.
Proof. unfold live_at. by vm_compute. Qed.

Lemma loaded_store_live :
  live_at loaded_store 1%positive loaded_state
    [(1, bookA); (2, bookB)] {[1]} {[1 := false]}.
Proof. unfold live_at. by vm_compute. Qed.

(** C1, the defect at a concrete input. A store with a registered dispatch
    function serves [.items] (the empty array, at location 1, is cached),
    then [paginate(1)] resolves with two books. The books are in the item
    map and a snapshot was dispatched, but the next read of [.items], on
    the store and on the snapshot alike, returns the same array as before,
    and that array is still empty. *)
Theorem paginate_after_read_serves_stale_items :
  let w1 := (items 1%positive bound_store).2 in
  let w2 := (paginate 1%positive 1 w1).2 in
  (items 1%positive bound_store).1 = Normal 1%positive ∧
  arrays w1 !! 1%positive = Some [] ∧
  (paginate 1%positive 1 w1).1 = Normal () ∧
  maps w2 !! 1%positive = Some [(1, bookA); (2, bookB)] ∧
  notified w2 = [(0%nat, 2%positive)] ∧
  (items 1%positive w2).1 = Normal 1%positive ∧
  (items 2%positive w2).1 = Normal 1%positive ∧
  arrays (items 1%positive w2).2 !! 1%positive = Some [].
Proof. by vm_compute. Qed.

(** C2, the defect at a concrete input. The fetch of page 7 rejects:
    [paginate(7)] rethrows the rejection, page 7 is in the seen set, and
    the loading flag of page 7 is still [true]. *)
Theorem rejected_paginate_leaves_loading_true :
  let w1 := (paginate 1%positive 7 bound_store).2 in
  (paginate 1%positive 7 bound_store).1 = Thrown (FetchRejected "network") ∧
  (flags w1 !! 1%positive) ≫= (λ f, f !! 7) = Some true ∧
  (elements <$> sets w1 !! 1%positive) = Some [7] ∧
  fetches w1 = [7].
Proof. by vm_compute. Qed.


(** C3 as stated fails. On a store that holds two books and has a
    dispatch function registered, [reset] returns normally and nothing is
    appended to the [notified] trace. *)
Lemma reset_on_loaded_store_is_silent :
  dispatch loaded_state = Some 0%nat ∧
  (reset 1%positive loaded_store).1 = Normal 1%positive ∧
  ¬ ∃ snap,
      notified (reset 1%positive loaded_store).2 =
        notified loaded_store ++ [(0%nat, snap)].
Proof.
  split_and!; [done | by vm_compute |].
  intros [snap Hs]. vm_compute in Hs. discriminate Hs.
Qed.

Lemma reset_clears_without_notifying_witness :
  live_at loaded_store 1%positive loaded_state
    [(1, bookA); (2, bookB)] {[1]} {[1 := false]} ∧
  notified (reset 1%positive loaded_store).2 = notified loaded_store.
Proof.
  split; [unfold live_at; vm_compute; repeat split |].
  apply (reset_clears_without_notifying loaded_store 1%positive loaded_state
           [(1, bookA); (2, bookB)] {[1]} {[1 := false]}).
  unfold live_at; vm_compute; repeat split.
Defined.

Ltac by_evaluation := apply (bool_decide_unpack _); vm_compute; exact I.

Lemma paginate_fetches_once_witness :
  (2 ∉ ({[1]} : gset Z)) ∧
  fetches (paginate 1%positive 2 loaded_store).2 = fetches loaded_store ++ [2] ∧
  paginate 1%positive 2 (paginate 1%positive 2 loaded_store).2 =
    (Normal (), (paginate 1%positive 2 loaded_store).2).
Proof.
  split; [by_evaluation|].
  destruct (paginate_fetches_once loaded_store 1%positive loaded_state
              [(1, bookA); (2, bookB)] {[1]} {[1 := false]} 2)
    as (Hf & Hs & _ & _).
  - unfold live_at; vm_compute; repeat split.
  - by_evaluation.
  - split; assumption.
Defined.

Lemma items_reference_stable_witness :
  ∃ a, (items 1%positive loaded_store).1 = Normal a ∧
       items 1%positive (items 1%positive loaded_store).2 =
         (Normal a, (items 1%positive loaded_store).2).
Proof.
  destruct (items_reference_stable loaded_store 1%positive loaded_state
              [(1, bookA); (2, bookB)] {[1]} {[1 := false]})
    as (a & H1 & H2 & _).
  - unfold live_at; vm_compute; repeat split.
  - exists a. split; assumption.
Defined.

Lemma short_circuits_are_silent_witness :
  ((has 1%positive (id bookA') loaded_store).1 = Normal true ∧
   add 1%positive bookA' loaded_store = (Normal (), loaded_store)) ∧
  ((has 1%positive 999 bound_store).1 = Normal false ∧
   remove 1%positive 999 bound_store =
     (Normal (),
      set_console
        (console bound_store ++
           [Warn messages.NOT_FOUND messages.FAILED_TO_REMOVE 999])
        bound_store)) ∧
  ((has 1%positive (id bookE) bound_store).1 = Normal false ∧
   update 1%positive bookE bound_store =
     (Normal (),
      set_console
        (console bound_store ++
           [Warn messages.NOT_FOUND messages.FAILED_TO_UPDATE (id bookE)])
        bound_store)).
Proof.
  split; [|split].
  - split; [vm_compute; reflexivity|].
    apply (proj1 (short_circuits_are_silent loaded_store 1%positive) bookA').
    vm_compute; reflexivity.
  - split; [vm_compute; reflexivity|].
    apply (proj1 (proj2 (short_circuits_are_silent bound_store 1%positive)) 999).
    vm_compute; reflexivity.
  - split; [vm_compute; reflexivity|].
    apply (proj2 (proj2 (short_circuits_are_silent bound_store 1%positive)) bookE).
    vm_compute; reflexivity.
Defined.

Lemma item_map_keys_unique_witness :
  reachable rewritten_store ∧
  maps rewritten_store !! 1%positive = Some [(1, bookA'); (2, bookB)] ∧
  unique_keys rewritten_store ∧
  every_map keyed_by_id rewritten_store ∧
  NoDup (id <$> entries_values [(1, bookA'); (2, bookB)]) ∧
  maps (update 1%positive bookA rewritten_store).2 !! 1%positive
    = Some (entries_set (id bookA) bookA [(1, bookA'); (2, bookB)]).
Proof.
  assert (reachable rewritten_store) as Hr.
  { exact (reach_call _ 1%positive (CallAdd bookA)
             (reach_call _ 1%positive (CallUpdate bookA')
                (reach_call _ 1%positive (CallPaginate 1)
                   (reach_call _ 1%positive (CallSetDispatch 0%nat)
                      (reach_new _ fetcher reach_empty))))). }
  assert (maps rewritten_store !! 1%positive = Some [(1, bookA'); (2, bookB)])
    as Hm by (vm_compute; reflexivity).
  destruct (item_map_keys_unique rewritten_store Hr) as (Hu & Hk & Hid & Hup & _).
  split; [exact Hr|]. split; [exact Hm|]. split; [exact Hu|].
  split; [exact Hk|]. split; [exact (Hid _ _ Hm)|].
  apply (Hup 1%positive (with_itemsCache None loaded_state)
           [(1, bookA'); (2, bookB)] {[1]} {[1 := false]} bookA).
  - unfold live_at; vm_compute; repeat split.
  - reflexivity.
Defined.

Lemma snapshots_share_items_and_copy_pages_witness :
  notified (perform 1%positive (CallAdd bookA) bound_store).2 =
    notified bound_store ++ [(0%nat, 2%positive)] ∧
  ∃ st' cst,
    objs (perform 1%positive (CallAdd bookA) bound_store).2 !! 1%positive
      = Some st' ∧
    objs (perform 1%positive (CallAdd bookA) bound_store).2 !! 2%positive
      = Some cst ∧
    _items cst = _items st' ∧ seen cst ≠ seen st' ∧
    loading cst ≠ loading st'.
Proof.
  split; [vm_compute; reflexivity|].
  destruct (snapshots_share_items_and_copy_pages bound_store 1%positive
              bound_state [] ∅ ∅ (CallAdd bookA) 0%nat 2%positive)
    as (st' & cst & Sc & Fc & H1 & H2 & _ & H3 & _ & _ & _ & _ & _ & H4 & H5 & _).
  - unfold live_at; vm_compute; repeat split.
  - vm_compute; reflexivity.
  - exists st', cst. repeat split; assumption.
Defined.

Lemma notifying_mutations_need_dispatch_witness :
  live_at fresh_store 1%positive fresh_state [] ∅ ∅ ∧
  (add 1%positive bookA fresh_store).1 = Thrown TypeError_not_a_function ∧
  (paginate 1%positive 1 fresh_store).1 = Thrown TypeError_not_a_function.
Proof.
  assert (live_at fresh_store 1%positive fresh_state [] ∅ ∅) as Hl
    by (unfold live_at; vm_compute; repeat split).
  split; [exact Hl|].
  destruct (notifying_mutations_need_dispatch fresh_store 1%positive
              fresh_state [] ∅ ∅ Hl) as (Hnone & _ & _).
  destruct (Hnone eq_refl) as (Hadd & _ & _ & Hpag).
  split.
  - apply Hadd. vm_compute; reflexivity.
  - apply (Hpag 1 (Some [bookA; bookB]) 2); [by_evaluation | reflexivity].
Defined.

Lemma update_keeps_position_witness :
  entries_index (id bookA') [(1, bookA); (2, bookB)] = Some 0%nat ∧
  ∃ a,
    (items 1%positive (update 1%positive bookA' loaded_store).2).1 = Normal a ∧
    arrays (items 1%positive (update 1%positive bookA' loaded_store).2).2 !! a
      = Some [bookA'; bookB].
Proof.
  split; [vm_compute; reflexivity|].
  destruct (update_keeps_position loaded_store 1%positive loaded_state
              [(1, bookA); (2, bookB)] {[1]} {[1 := false]} bookA' 0%nat)
    as (a & vs & H1 & _ & H2 & H3 & _).
  - unfold live_at; vm_compute; repeat split.
  - vm_compute; reflexivity.
  - exists a. split; [exact H1|]. rewrite H2, H3. reflexivity.
Defined.

(** ** The further properties on the sample stores *)

Ltac sample_live := unfold live_at; vm_compute; repeat split.

Lemma get_returns_item_or_warns_witness :
  live_at loaded_store 1%positive loaded_state
    [(1, bookA); (2, bookB)] {[1]} {[1 := false]} ∧
  get 1%positive 1 loaded_store = (Normal (Some bookA), loaded_store).
Proof.
  assert (live_at loaded_store 1%positive loaded_state
            [(1, bookA); (2, bookB)] {[1]} {[1 := false]}) as Hl
    by sample_live.
  split; [exact Hl|].
  apply (get_returns_item_or_warns loaded_store 1%positive loaded_state
           [(1, bookA); (2, bookB)] {[1]} {[1 := false]} 1 Hl).
  reflexivity.
Defined.

Lemma add_appends_at_end_witness :
  entries_has (id bookE) [(1, bookA); (2, bookB)] = false ∧
  (add 1%positive bookE loaded_store).1 = Normal () ∧
  live_at (add 1%positive bookE loaded_store).2 1%positive
    (with_itemsCache None loaded_state)
    ([(1, bookA); (2, bookB)] ++ [(id bookE, bookE)]) {[1]} {[1 := false]}.
Proof.
  split; [reflexivity|].
  destruct (add_appends_at_end loaded_store 1%positive loaded_state
              [(1, bookA); (2, bookB)] {[1]} {[1 := false]} bookE 0%nat)
    as (H1 & H2 & _).
  - sample_live.
  - reflexivity.
  - reflexivity.
  - split; assumption.
Defined.

Lemma failed_dispatch_keeps_the_mutation_witness :
  dispatch fresh_state = None ∧
  (add 1%positive bookA fresh_store).1 = Thrown TypeError_not_a_function ∧
  live_at (add 1%positive bookA fresh_store).2 1%positive
    (with_itemsCache None fresh_state) ([] ++ [(id bookA, bookA)]) ∅ ∅.
Proof.
  split; [reflexivity|].
  destruct (failed_dispatch_keeps_the_mutation fresh_store 1%positive
              fresh_state [] ∅ ∅) as (Hadd & _).
  - sample_live.
  - reflexivity.
  - destruct (Hadd bookA eq_refl) as (H1 & _ & H2). split; assumption.
Defined.

Lemma remove_deletes_in_place_witness :
  NoDup ([(1, bookA); (2, bookB)].*1) ∧
  entries_index 1 [(1, bookA); (2, bookB)] = Some 0%nat ∧
  (has 1%positive 1 (remove 1%positive 1 loaded_store).2).1 = Normal false.
Proof.
  assert (NoDup ([(1, bookA); (2, bookB)].*1)) as Hnd by by_evaluation.
  split; [exact Hnd|]. split; [reflexivity|].
  destruct (remove_deletes_in_place loaded_store 1%positive loaded_state
              [(1, bookA); (2, bookB)] {[1]} {[1 := false]} 1 0%nat 0%nat)
    as (_ & _ & _ & _ & _ & H & _).
  - sample_live.
  - reflexivity.
  - exact Hnd.
  - reflexivity.
  - exact H.
Defined.

Lemma add_then_remove_restores_items_witness :
  entries_has (id bookE) [(1, bookA); (2, bookB)] = false ∧
  live_at (remove 1%positive (id bookE) (add 1%positive bookE loaded_store).2).2
    1%positive (with_itemsCache None loaded_state)
    [(1, bookA); (2, bookB)] {[1]} {[1 := false]}.
Proof.
  split; [reflexivity|].
  apply (add_then_remove_restores_items loaded_store 1%positive loaded_state
           [(1, bookA); (2, bookB)] {[1]} {[1 := false]} bookE).
  - sample_live.
  - reflexivity.
Defined.

Lemma setDispatch_last_registration_wins_witness :
  entries_has (id bookA) ([] : list (Z * Book)) = false ∧
  ∃ snap,
    notified
      (add 1%positive bookA
         (setDispatch 1%positive 1%nat
            (setDispatch 1%positive 0%nat fresh_store).2).2).2
    = notified fresh_store ++ [(1%nat, snap)].
Proof.
  split; [reflexivity|].
  apply (setDispatch_last_registration_wins fresh_store 1%positive fresh_state
           [] ∅ ∅ 0%nat 1%nat bookA).
  - sample_live.
  - reflexivity.
Defined.

Lemma paginate_success_lifecycle_witness :
  (1 ∉ (∅ : gset Z)) ∧
  onPaginate bound_state 1 = Resolved (Some [bookA; bookB]) 2 ∧
  (paginate 1%positive 1 bound_store).1 = Normal () ∧
  live_at (paginate_enter 1%positive 1 bound_store).2 1%positive bound_state
    [] ({[1]} ∪ ∅) (<[1 := true]> ∅).
Proof.
  split; [by_evaluation|]. split; [reflexivity|].
  destruct (paginate_success_lifecycle bound_store 1%positive bound_state
              [] ∅ ∅ 1 (Some [bookA; bookB]) 2 0%nat)
    as (_ & H2 & _ & _ & H5 & _).
  - sample_live.
  - reflexivity.
  - by_evaluation.
  - reflexivity.
  - split; assumption.
Defined.

Lemma paginate_without_data_still_notifies_witness :
  onPaginate loaded_state 2 = Resolved None 2 ∧
  live_at (paginate 1%positive 2 loaded_store).2 1%positive
    (with_total 2 loaded_state) [(1, bookA); (2, bookB)]
    ({[2]} ∪ {[1]}) (<[2 := false]> {[1 := false]}).
Proof.
  split; [reflexivity|].
  apply (paginate_without_data_still_notifies loaded_store 1%positive
           loaded_state [(1, bookA); (2, bookB)] {[1]} {[1 := false]}
           2 None 2 0%nat).
  - sample_live.
  - reflexivity.
  - by_evaluation.
  - reflexivity.
  - left; reflexivity.
Defined.

Lemma reset_starts_over_witness :
  live_at loaded_store 1%positive loaded_state
    [(1, bookA); (2, bookB)] {[1]} {[1 := false]} ∧
  fetches (paginate 1%positive 1 (reset 1%positive loaded_store).2).2
    = fetches loaded_store ++ [1].
Proof.
  assert (live_at loaded_store 1%positive loaded_state
            [(1, bookA); (2, bookB)] {[1]} {[1 := false]}) as Hl
    by sample_live.
  split; [exact Hl|].
  apply (reset_starts_over loaded_store 1%positive loaded_state
           [(1, bookA); (2, bookB)] {[1]} {[1 := false]} Hl).
Defined.

Lemma arrays_are_never_mutated_witness :
  arrays read_store !! 1%positive = Some [bookA; bookB] ∧
  arrays (perform_all 1%positive [CallAdd bookE; CallReset] read_store)
    !! 1%positive = Some [bookA; bookB].
Proof.
  assert (arrays read_store !! 1%positive = Some [bookA; bookB]) as Ha
    by (vm_compute; reflexivity).
  split; [exact Ha|].
  apply (arrays_are_never_mutated read_store 1%positive read_state
           [(1, bookA); (2, bookB)] {[1]} {[1 := false]}); [sample_live | exact Ha].
Defined.

Lemma no_page_is_fetched_twice_witness :
  Forall (λ c : call (T:=Book), is_reset c = false)
    [CallPaginate 2; CallAdd bookE; CallPaginate 2; CallPaginate 1] ∧
  ∃ ps,
    fetches (perform_all 1%positive
               [CallPaginate 2; CallAdd bookE; CallPaginate 2; CallPaginate 1]
               loaded_store) = fetches loaded_store ++ ps ∧
    NoDup ps.
Proof.
  assert (Forall (λ c : call (T:=Book), is_reset c = false)
            [CallPaginate 2; CallAdd bookE; CallPaginate 2; CallPaginate 1])
    as Hcs by (repeat constructor).
  split; [exact Hcs|].
  destruct (no_page_is_fetched_twice loaded_store 1%positive loaded_state
              [(1, bookA); (2, bookB)] {[1]} {[1 := false]} _ ltac:(sample_live) Hcs)
    as (st' & m' & S' & F' & ps & _ & H1 & H2 & _).
  exists ps. split; assumption.
Defined.

Lemma only_paginate_fetches_witness :
  Forall (λ c : call (T:=Book), is_paginate c = false) [CallAdd bookE; CallReset] ∧
  fetches (perform_all 1%positive [CallAdd bookE; CallReset] loaded_store)
    = fetches loaded_store.
Proof.
  assert (Forall (λ c : call (T:=Book), is_paginate c = false) [CallAdd bookE; CallReset])
    as Hcs by (repeat constructor).
  split; [exact Hcs|].
  apply (only_paginate_fetches loaded_store 1%positive loaded_state
           [(1, bookA); (2, bookB)] {[1]} {[1 := false]}); [sample_live | exact Hcs].
Defined.

Lemma reads_and_reset_never_notify_witness :
  Forall (λ c : call (T:=Book), is_paginate c = false ∧ is_edit c = false)
    [CallItems; CallReset; CallGet 1] ∧
  notified (perform_all 1%positive [CallItems; CallReset; CallGet 1] loaded_store)
    = notified loaded_store.
Proof.
  assert (Forall (λ c : call (T:=Book), is_paginate c = false ∧ is_edit c = false)
            [CallItems; CallReset; CallGet 1]) as Hcs by (repeat constructor).
  split; [exact Hcs|].
  apply (reads_and_reset_never_notify loaded_store 1%positive loaded_state
           [(1, bookA); (2, bookB)] {[1]} {[1 := false]}); [sample_live | exact Hcs].
Defined.

Lemma edits_keep_total_and_pages_witness :
  Forall (λ c : call (T:=Book), is_paginate c = false ∧ is_reset c = false)
    [CallAdd bookE; CallRemove 1] ∧
  ∃ st' m',
    live_at (perform_all 1%positive [CallAdd bookE; CallRemove 1] loaded_store)
      1%positive st' m' {[1]} {[1 := false]} ∧
    total st' = total loaded_state.
Proof.
  assert (Forall (λ c : call (T:=Book), is_paginate c = false ∧ is_reset c = false)
            [CallAdd bookE; CallRemove 1]) as Hcs by (repeat constructor).
  split; [exact Hcs|].
  apply (edits_keep_total_and_pages loaded_store 1%positive loaded_state
           [(1, bookA); (2, bookB)] {[1]} {[1 := false]}); [sample_live | exact Hcs].
Defined.

Lemma snapshot_and_store_share_the_item_map_witness :
  dispatch bound_state = Some 0%nat ∧
  ∃ snap,
    notified (add 1%positive bookA bound_store).2
      = notified bound_store ++ [(0%nat, snap)] ∧
    (has snap (id bookA) (add 1%positive bookA bound_store).2).1 = Normal true.
Proof.
  split; [reflexivity|].
  destruct (snapshot_and_store_share_the_item_map bound_store 1%positive
              bound_state [] ∅ ∅ bookA 0%nat)
    as (snap & H1 & _ & H2 & _).
  - sample_live.
  - reflexivity.
  - reflexivity.
  - exists snap. split; assumption.
Defined.

Lemma overlapping_pages_complete_in_resolution_order_witness :
  (1 ∉ (∅ : gset Z)) ∧ (2 ∉ (∅ : gset Z)) ∧ 1 ≠ 2 ∧
  fetches
    (paginate_resume 1%positive 1 (Resolved (Some [bookA; bookB]) 2)
       (paginate_resume 1%positive 2 (Resolved None 2)
          (paginate_enter 1%positive 2
             (paginate_enter 1%positive 1 bound_store).2).2).2).2
    = fetches bound_store ++ [1; 2].
Proof.
  split; [by_evaluation|]. split; [by_evaluation|]. split; [discriminate|].
  apply (overlapping_pages_complete_in_resolution_order bound_store 1%positive
           bound_state [] ∅ ∅ 1 2 (Some [bookA; bookB]) 2 None 2).
  - sample_live.
  - by_evaluation.
  - by_evaluation.
  - discriminate.
  - reflexivity.
  - reflexivity.
Defined.
